(** * Adaptive-threshold SNN pacemaker: detector and VVI controller

    Shallow embedding of [adaptive_threshold.py]: the adaptive
    leaky-integrate-and-fire detector ([AdaptiveLIFDetector]), the
    demand pacing controller ([PacemakerController]) and the loop of
    [run_closed_loop] that couples them.  The signal generator, the
    band-pass filter and the plots are outside.

    Numbers.  Python floats are idealised as exact rationals ([Q]):
    [1e-9] is [1 # 10^9], [60.0 / x] is [60 / x], and so on.  Rounding,
    [inf] and [nan] have no counterpart: the embedding describes runs
    whose numbers stay finite.  A Python division by zero raises and is
    modelled; NumPy divides by a zero [tau_m] or [tau_theta] without
    raising and yields [inf] or [nan], where [Q] yields 0.
    Comparisons of the source ([>=], [<], [>]) are the boolean tests
    [Qgeb], [Qltb], [Qgtb] below.

    Exceptions.  Code that can raise returns [result]: [ValueError] for
    a reduction over an empty array, [ZeroDivisionError] for a Python
    division or modulo by zero, [IndexError] for an array access out of
    range.

    Randomness.  The only random choice the controller makes is the
    Bernoulli draw [np.random.rand() < cap_prob]; its outcome is an
    argument of [step]. *)

From Stdlib Require Import ZArith QArith Qminmax Qabs Lqa Lia Bool String.
From stdpp Require Import base list.

Local Open Scope Q_scope.

(** ** Numeric helpers *)

Definition Qgeb (x y : Q) : bool := Qle_bool y x.
Definition Qltb (x y : Q) : bool := negb (Qle_bool y x).
Definition Qgtb (x y : Q) : bool := negb (Qle_bool x y).

(** The sentinel [-1e9] used for "no event yet". *)
Definition NEG_1E9 : Q := - (1000000000 # 1).

(** Exceptions of the source. *)
Inductive error : Type :=
| ValueError
| ZeroDivisionError
| IndexError.

Inductive result (A : Type) : Type :=
| Ok (a : A)
| Raise (e : error).
Arguments Ok {A} a.
Arguments Raise {A} e.

Definition bind {A B : Type} (m : result A) (k : A -> result B) : result B :=
  match m with
  | Ok a => k a
  | Raise e => Raise e
  end.

Notation "'let*' x := m 'in' k" := (bind m (fun x => k))
  (at level 10, x name, m at level 100, k at level 200, only parsing).

(** [for t in range(n): s = body t s], without and with exceptions. *)
Fixpoint for_from {St : Type} (body : nat -> St -> St) (i n : nat) (s : St) : St :=
  match n with
  | O => s
  | S n' => for_from body (S i) n' (body i s)
  end.

Definition for_range {St : Type} (n : nat) (body : nat -> St -> St) (s : St) : St :=
  for_from body 0 n s.

Fixpoint for_fromM {St : Type} (body : nat -> St -> result St) (i n : nat) (s : St)
  : result St :=
  match n with
  | O => Ok s
  | S n' => let* s' := body i s in for_fromM body (S i) n' s'
  end.

Definition for_rangeM {St : Type} (n : nat) (body : nat -> St -> result St) (s : St)
  : result St :=
  for_fromM body 0 n s.

(** Python's true division [x / y] on numbers. *)
Definition py_div (x y : Q) : result Q :=
  if Qeq_bool y 0 then Raise ZeroDivisionError else Ok (x / y).

(** The sample index [t] as a number. *)
Definition of_nat (t : nat) : Q := inject_Z (Z.of_nat t).

(** Python's [int(x)]: truncation toward zero. *)
Definition py_int (x : Q) : Z := Z.quot (Qnum x) (Z.pos (Qden x)).

(** Python's [a % b] on integers (the sign follows the divisor). *)
Definition py_mod (a b : Z) : result Z :=
  if Z.eqb b 0 then Raise ZeroDivisionError else Ok (Z.modulo a b).

(** Python's [max(a, b)]: [b] only when it is strictly larger. *)
Definition py_max (a b : Q) : Q := if Qgtb b a then b else a.

(** Array read [a[i]] and write [a[i] = x]. *)
Definition get {A : Type} (a : list A) (i : nat) : result A :=
  match a !! i with
  | Some x => Ok x
  | None => Raise IndexError
  end.

Definition set {A : Type} (a : list A) (i : nat) (x : A) : result (list A) :=
  if decide (i < length a)%nat then Ok (<[i := x]> a) else Raise IndexError.

(** ** NumPy reductions and element-wise operations *)

Definition np_min (a : list Q) : result Q :=
  match a with
  | [] => Raise ValueError
  | x :: a' => Ok (foldl Qmin x a')
  end.

Definition np_max (a : list Q) : result Q :=
  match a with
  | [] => Raise ValueError
  | x :: a' => Ok (foldl Qmax x a')
  end.

(** [np.clip(x, lo, hi)] is [minimum(maximum(x, lo), hi)]. *)
Definition np_clip (x lo hi : Q) : Q := Qmin (Qmax x lo) hi.

(** [np.clip(x, lo, None)]. *)
Definition np_clip_lo (x lo : Q) : Q := Qmax x lo.

Fixpoint insert_sorted (x : Q) (l : list Q) : list Q :=
  match l with
  | [] => [x]
  | y :: l' => if Qle_bool x y then x :: l else y :: insert_sorted x l'
  end.

Definition np_sort (a : list Q) : list Q := foldr insert_sorted [] a.

(** [np.median] of a non-empty array: the middle element of the sorted
    array, or the mean of the two middle elements.  (On an empty array
    NumPy returns [nan]; [run] never gets there.) *)
Definition np_median (a : list Q) : Q :=
  let s := np_sort a in
  let n := length a in
  if Nat.even n
  then (nth (n / 2 - 1) s 0 + nth (n / 2) s 0) / 2
  else nth (n / 2) s 0.

(** ** Pacemaker controller (VVI mode) *)

Module PacemakerController.

Record t : Type := mk {
  fs : Q;
  mode : string;
  escape_interval_s : Q;
  blanking_s : Q;
  refractory_s : Q;
  pulse_amp : Q;
  pulse_width_s : Q;
  capture_threshold : Q;
  last_event_time : Q;
  blank_until : Q;
  refract_until : Q;
  pacing_history : list (Q * bool);
  sensed_history : list Q
}.

(** [reset]: forget every event. *)
Definition reset (c : t) : t :=
  mk (fs c) (mode c) (escape_interval_s c) (blanking_s c) (refractory_s c)
     (pulse_amp c) (pulse_width_s c) (capture_threshold c)
     NEG_1E9 NEG_1E9 NEG_1E9 [] [].

(** [__init__]: the only operation that can raise is [60.0 / lower_rate_bpm]. *)
Definition init (fs : Q) (mode : string) (lower_rate_bpm : Q)
    (blanking_ms refractory_ms pulse_amplitude_mV pulse_width_ms
     capture_threshold_mV : Q) : result t :=
  let* escape := py_div 60 lower_rate_bpm in
  Ok (reset (mk fs mode escape (blanking_ms / 1000) (refractory_ms / 1000)
                pulse_amplitude_mV (pulse_width_ms / 1000)
                capture_threshold_mV 0 0 0 [] [])).

(** The keyword defaults of [__init__]. *)
Definition default : result t :=
  init 250 "VVI" 50 40 200 (5 # 2) (1 # 2) (11 # 10).

(** The controller that [default] builds. *)
Definition default_controller : t :=
  mk 250 "VVI" (60 / 50) (40 / 1000) (200 / 1000) (5 # 2) ((1 # 2) / 1000)
     (11 # 10) NEG_1E9 NEG_1E9 NEG_1E9 [] [].

(** Sense phase of [step] (the first [if]). *)
Definition sense (c : t) (t_s : Q) (detector_spike : bool) : t * bool :=
  if detector_spike && Qgeb t_s (blank_until c) && Qgeb t_s (refract_until c)
  then (mk (fs c) (mode c) (escape_interval_s c) (blanking_s c) (refractory_s c)
           (pulse_amp c) (pulse_width_s c) (capture_threshold c)
           t_s (blank_until c) (t_s + refractory_s c)
           (pacing_history c) (sensed_history c ++ [t_s]),
        true)
  else (c, false).

(** Pace phase of [step] (the second [if]); [draw] is the outcome of
    [np.random.rand() < cap_prob]. *)
Definition pace_phase (c : t) (t_s : Q) (draw : bool) : t * (bool * bool) :=
  let time_since_last := t_s - last_event_time c in
  if Qgeb time_since_last (escape_interval_s c)
  then (mk (fs c) (mode c) (escape_interval_s c) (blanking_s c) (refractory_s c)
           (pulse_amp c) (pulse_width_s c) (capture_threshold c)
           t_s (t_s + blanking_s c) (refract_until c)
           (pacing_history c ++ [(t_s, draw)]) (sensed_history c),
        (true, draw))
  else (c, (false, false)).

(** [step]: returns the new controller and [(pace, captured, accepted)]. *)
Definition step (c : t) (t_s : Q) (detector_spike : bool) (draw : bool)
  : t * (bool * bool * bool) :=
  let '(c1, accepted) := sense c t_s detector_spike in
  let '(c2, (pace, captured)) := pace_phase c1 t_s draw in
  (c2, (pace, captured, accepted)).

(** The controller's part of the simulator loop
    [for i in range(N): pacemaker.step(t[i], spikes[i] == 1)] with
    [t[i] = i / fs].  [spikes i] is the flag the loop reads at index [i]
    (the detector may have been re-run before), [draws i] the capture
    draw available at step [i].  [ClosedLoop.body] below is the whole
    pass; its controller goes through the states of [drive]. *)
Definition sample_time (fs : Q) (i : nat) : Q := of_nat i / fs.

Definition drive (fs : Q) (spikes draws : nat -> bool) (n : nat) (c : t) : t :=
  for_range n (fun i c => fst (step c (sample_time fs i) (spikes i) (draws i))) c.

(** What step [i] of that loop returns. *)
Definition output (fs : Q) (spikes draws : nat -> bool) (c : t) (i : nat)
  : bool * bool * bool :=
  snd (step (drive fs spikes draws i c) (sample_time fs i) (spikes i) (draws i)).

Definition paced (o : bool * bool * bool) : bool := fst (fst o).
Definition accepted (o : bool * bool * bool) : bool := snd o.
(** A controller event: an accepted sense or a delivered pace. *)
Definition event (o : bool * bool * bool) : bool := paced o || accepted o.

End PacemakerController.

(** ** Adaptive LIF neuron (detector) *)

Module AdaptiveLIFDetector.

Record t : Type := mk {
  fs : Q;
  dt : Q;
  tau_m : Q;
  tau_theta : Q;
  theta_base : Q;
  theta_inc : Q;
  v_reset : Q;
  v_rest : Q;
  gain : Q;
  dead_zone : Q;
  refractory_s : Q;
  homeo_rate : Q;
  target_spikes_per_sec : Q;
  homeo_window_s : Q;
  spike_times : list Q;
  v : list Q;
  theta : list Q
}.

Definition with_arrays (d : t) (v' theta' : list Q) : t :=
  mk (fs d) (dt d) (tau_m d) (tau_theta d) (theta_base d) (theta_inc d)
     (v_reset d) (v_rest d) (gain d) (dead_zone d) (refractory_s d)
     (homeo_rate d) (target_spikes_per_sec d) (homeo_window_s d)
     (spike_times d) v' theta'.

Definition with_spike_times (d : t) (st : list Q) : t :=
  mk (fs d) (dt d) (tau_m d) (tau_theta d) (theta_base d) (theta_inc d)
     (v_reset d) (v_rest d) (gain d) (dead_zone d) (refractory_s d)
     (homeo_rate d) (target_spikes_per_sec d) (homeo_window_s d)
     st (v d) (theta d).

Definition with_theta_base (d : t) (tb : Q) : t :=
  mk (fs d) (dt d) (tau_m d) (tau_theta d) tb (theta_inc d)
     (v_reset d) (v_rest d) (gain d) (dead_zone d) (refractory_s d)
     (homeo_rate d) (target_spikes_per_sec d) (homeo_window_s d)
     (spike_times d) (v d) (theta d).

(** [__init__]; [dt = None] takes [1 / fs], the only operation that can
    raise.  The arrays [v] and [theta] exist from the first [reset] on. *)
Definition init (fs : Q) (dt : option Q)
    (tau_m tau_theta theta_base theta_inc v_reset v_rest gain dead_zone
     refractory_ms homeo_rate target_spikes_per_sec homeo_window_s : Q)
  : result t :=
  let* dt' := match dt with
              | None => py_div 1 fs
              | Some x => Ok x
              end in
  Ok (mk fs dt' tau_m tau_theta theta_base theta_inc v_reset v_rest gain
         dead_zone (refractory_ms / 1000) homeo_rate target_spikes_per_sec
         homeo_window_s [] [] []).

(** The keyword defaults of [__init__]. *)
Definition default : result t :=
  init 250 None (3 # 100) (7 # 10) (15 # 100) (25 # 100) 0 0 10 (18 # 100)
       150 (8 # 10000) 1 6.

(** The detector that [default] builds. *)
Definition default_detector : t :=
  mk 250 (1 / 250) (3 # 100) (7 # 10) (15 # 100) (25 # 100) 0 0 10 (18 # 100)
     (150 / 1000) (8 # 10000) 1 6 [] [] [].

(** A detector for short worked examples: the defaults with a threshold
    increment of 0.05, a refractory period of 8 ms and a homeostatic
    window of 2 samples. *)
Definition short_detector : t :=
  mk 250 (1 / 250) (3 # 100) (7 # 10) (15 # 100) (5 # 100) 0 0 10 (18 # 100)
     (8 / 1000) (8 # 10000) 1 (2 / 250) [] [] [].

(** [reset(length)]: [np.zeros(length)], [np.ones(length) * theta_base]
    and an empty spike list. *)
Definition reset (d : t) (length : nat) : t :=
  with_spike_times
    (with_arrays d (replicate length 0) (replicate length (theta_base d))) [].

(** Lines 90-91: scale to unit range unless the shifted maximum [mx] is
    not positive. *)
Definition unit_range (ecg_shifted : list Q) (mx : Q) : list Q :=
  if Qgtb mx 0
  then map (fun x => x / (mx + (1 # 1000000000000))) ecg_shifted
  else ecg_shifted.

(** Line 93: the median absolute deviation, floored by [1e-9]. *)
Definition mad (ecg_shifted : list Q) (med : Q) : Q :=
  np_median (map (fun x => Qabs (x - med)) ecg_shifted) + (1 # 1000000000).

(** Lines 89-96 of [run]: the drive current [I_t]. *)
Definition drive_current (d : t) (ecg_filtered : list Q) : result (list Q) :=
  let* mn := np_min ecg_filtered in
  let ecg_shifted := map (fun x => x - mn) ecg_filtered in
  let* mx := np_max ecg_shifted in
  let ecg_shifted := unit_range ecg_shifted mx in
  let med := np_median ecg_shifted in
  let ecg_std := map (fun x => (x - med) / mad ecg_shifted med) ecg_shifted in
  let ecg_std := map (fun x => np_clip x (- 5) 10) ecg_std in
  Ok (map (fun x => gain d * np_clip_lo (x - dead_zone d) 0) ecg_std).

(** The variables of the sample loop: the detector object, the local
    array [spikes] and the local [last_spike_time]. *)
Record loop_state : Type := mkLoop {
  det : t;
  spikes : list Z;
  last_spike_time : Q
}.

(** Lines 101-113: integrate, test the threshold outside refractory,
    then spike or relax. *)
Definition lif_step (I_t : list Q) (t : nat) (s : loop_state)
  : result loop_state :=
  let d := det s in
  let* v_t := get (v d) t in
  let* I := get I_t t in
  let dv := dt d * (- (v_t - v_rest d) / tau_m d + I) in
  let* v1 := set (v d) (t + 1) (v_t + dv) in
  let* now := py_div (of_nat t) (fs d) in
  let refractory := Qltb (now - last_spike_time s) (refractory_s d) in
  let* theta_t := get (theta d) t in
  if negb refractory && Qgeb (v_t + dv) theta_t
  then
    let* spikes1 := set (spikes s) (t + 1) 1%Z in
    let* v2 := set v1 (t + 1) (v_reset d) in
    let* theta1 := set (theta d) (t + 1) (theta_t + theta_inc d) in
    let* stamp := py_div (of_nat (t + 1)) (fs d) in
    Ok (mkLoop (with_spike_times (with_arrays d v2 theta1)
                                 (spike_times d ++ [stamp]))
               spikes1 now)
  else
    let dth := dt d * (- (theta_t - theta_base d) / tau_theta d) in
    let* theta1 := set (theta d) (t + 1) (theta_t + dth) in
    Ok (mkLoop (with_arrays d v1 theta1) (spikes s) (last_spike_time s)).

(** Whether the homeostatic update fires at sample [t] (line 115). *)
Definition homeo_due (d : t) (t : nat) : result bool :=
  let* r := py_mod (Z.of_nat t) (py_int (homeo_window_s d * fs d)) in
  Ok (Z.eqb r 0 && Z.ltb 0 (Z.of_nat t)).

(** The clamp range of [theta_base]. *)
Definition THETA_BASE_MIN : Q := 1 # 1000.
Definition THETA_BASE_MAX : Q := 1.

(** Lines 116-120: the new [theta_base]. *)
Definition homeo_update (d : t) (t : nat) : result Q :=
  let* now := py_div (of_nat (t + 1)) (fs d) in
  let wins := filter (fun s => Qgeb s (now - homeo_window_s d) = true)
                     (spike_times d) in
  let* rate := py_div (of_nat (length wins))
                      (py_max (1 # 1000000000) (homeo_window_s d)) in
  let delta := homeo_rate d * (target_spikes_per_sec d - rate) in
  Ok (np_clip (theta_base d + delta) THETA_BASE_MIN THETA_BASE_MAX).

(** Lines 115-120. *)
Definition homeostasis (t : nat) (s : loop_state) : result loop_state :=
  let* due := homeo_due (det s) t in
  if due
  then let* tb := homeo_update (det s) t in
       Ok (mkLoop (with_theta_base (det s) tb) (spikes s) (last_spike_time s))
  else Ok s.

(** One pass of the body of [for t in range(T-1)]. *)
Definition body (I_t : list Q) (t : nat) (s : loop_state) : result loop_state :=
  let* s1 := lif_step I_t t s in
  homeostasis t s1.

(** The state on entry to the loop. *)
Definition loop_init (d : t) (T : nat) : loop_state :=
  mkLoop (reset d T) (replicate T 0%Z) NEG_1E9.

(** The state after the first [k] passes of the loop of [run]. *)
Definition run_upto (d : t) (ecg_filtered : list Q) (k : nat)
  : result (list Q * loop_state) :=
  let T := length ecg_filtered in
  let* I_t := drive_current d ecg_filtered in
  let* s := for_rangeM k (body I_t) (loop_init d T) in
  Ok (I_t, s).

(** [run]: the detector after the run and [(I_t, v, theta, spikes)]. *)
Definition run (d : t) (ecg_filtered : list Q)
  : result (t * (list Q * list Q * list Q * list Z)) :=
  let* r := run_upto d ecg_filtered (length ecg_filtered - 1) in
  let '(I_t, s) := r in
  Ok (det s, (I_t, v (det s), theta (det s), spikes s)).

End AdaptiveLIFDetector.

(** ** Closed-loop simulation *)

Module ClosedLoop.

(** The variables of the loop of [run_closed_loop]: the observed signal,
    the detector and its last outputs, the controller and the three
    lists of times. *)
Record state : Type := mk {
  obs_ecg : list Q;
  detector : AdaptiveLIFDetector.t;
  I_t : list Q;
  v : list Q;
  theta : list Q;
  spikes : list Z;
  pacemaker : PacemakerController.t;
  paced_times : list Q;
  captured_times : list Q;
  sensed_times : list Q
}.

(** Lines 190-193: the pulse artefact added to [obs_ecg] from index [i]
    on, a ramp over [width = max(1, int(pulse_width_s * fs))] samples
    that stays inside the [N] samples.  ([obs_ecg] has [N] samples, so
    the read of [obs_ecg[i+j]] below [N] always finds one.) *)
Definition inject (fs : Q) (N : nat) (pm : PacemakerController.t)
    (obs : list Q) (i : nat) : list Q :=
  let width := Z.max 1 (py_int (PacemakerController.pulse_width_s pm * fs)) in
  for_range (Z.to_nat width)
    (fun j obs =>
       if decide (i + j < N)%nat
       then match obs !! (i + j)%nat with
            | Some x =>
                <[(i + j)%nat := x + (9 # 10) * (1 - of_nat j / inject_Z width)]> obs
            | None => obs
            end
       else obs)
    obs.

(** One pass of [for i in range(N)] (lines 182-194); [t[i]] is
    [i / fs] and [draws i] the capture draw of this step. *)
Definition body (fs : Q) (N : nat) (draws : nat -> bool) (i : nat) (s : state)
  : result state :=
  let t_s := PacemakerController.sample_time fs i in
  let* sp := get (spikes s) i in
  let detector_spike := Z.eqb sp 1 in
  let '(pm, (pace, captured, accepted)) :=
    PacemakerController.step (pacemaker s) t_s detector_spike (draws i) in
  let sensed := if accepted then sensed_times s ++ [t_s] else sensed_times s in
  if pace && captured
  then
    let obs := inject fs N pm (obs_ecg s) i in
    let* r := AdaptiveLIFDetector.run (detector s) obs in
    let '(d', (I', v', theta', spikes')) := r in
    Ok (mk obs d' I' v' theta' spikes' pm (paced_times s ++ [t_s])
           (captured_times s ++ [t_s]) sensed)
  else
    Ok (mk (obs_ecg s) (detector s) (I_t s) (v s) (theta s) (spikes s) pm
           (paced_times s) (captured_times s) sensed).

(** [run_closed_loop] from the filtered signal on (the signal source
    and the filter are external): [detector] and [pacemaker] are the
    freshly constructed objects, the time axis is
    [np.arange(0, duration_s, 1/fs)] with as many samples as the signal. *)
Definition run_closed_loop (fs : Q) (ecg_filt : list Q)
    (detector : AdaptiveLIFDetector.t) (pacemaker : PacemakerController.t)
    (draws : nat -> bool) : result state :=
  let* _ := py_div 1 fs in
  let N := length ecg_filt in
  let* r := AdaptiveLIFDetector.run detector ecg_filt in
  let '(d', (I', v', theta', spikes')) := r in
  for_rangeM N (body fs N draws)
    (mk ecg_filt d' I' v' theta' spikes' pacemaker [] [] []).

End ClosedLoop.

(** ** Vocabulary of the statements *)

Section Vocabulary.
Import AdaptiveLIFDetector.

(** The configuration of a detector: everything but the state that
    [run] rewrites ([theta_base], [spike_times], [v], [theta]). *)
Definition config (d : t) : t :=
  with_theta_base (with_spike_times (with_arrays d [] []) []) 0.

(** The integrated potential and the relaxed threshold of sample [t]. *)
Definition integrated (d : t) (v_t I : Q) : Q :=
  v_t + dt d * (- (v_t - v_rest d) / tau_m d + I).

Definition relaxed (d : t) (theta_t : Q) : Q :=
  theta_t + dt d * (- (theta_t - theta_base d) / tau_theta d).

(** The spike test of line 105. *)
Definition fires (d : t) (last now v_new theta_t : Q) : bool :=
  negb (Qltb (now - last) (refractory_s d)) && Qgeb v_new theta_t.

(** One pass of the loop body, as a relation between the loop states
    before and after it. *)
Definition pass (I_t : list Q) (k : nat) (s s' : loop_state) : Prop :=
  let d := det s in
  let d' := det s' in
  config d' = config d /\
  length (v d') = length (v d) /\ length (theta d') = length (theta d) /\
  length (spikes s') = length (spikes s) /\
  (forall j, j <> (k + 1)%nat ->
     v d' !! j = v d !! j /\ theta d' !! j = theta d !! j /\
     spikes s' !! j = spikes s !! j) /\
  exists v_t I theta_t,
    v d !! k = Some v_t /\ I_t !! k = Some I /\ theta d !! k = Some theta_t /\
    ~ fs d == 0 /\
    let now := of_nat k / fs d in
    let pot := integrated d v_t I in
    (fires d (last_spike_time s) now pot theta_t = true /\
     spikes s' !! (k + 1)%nat = Some 1%Z /\
     v d' !! (k + 1)%nat = Some (v_reset d) /\
     theta d' !! (k + 1)%nat = Some (theta_t + theta_inc d) /\
     spike_times d' = spike_times d ++ [of_nat (k + 1) / fs d] /\
     last_spike_time s' = now)
    \/
    (fires d (last_spike_time s) now pot theta_t = false /\
     spikes s' = spikes s /\
     v d' !! (k + 1)%nat = Some pot /\
     theta d' !! (k + 1)%nat = Some (relaxed d theta_t) /\
     spike_times d' = spike_times d /\
     last_spike_time s' = last_spike_time s).

(** The arrays keep the length of the signal, the configuration is the
    one [run] was called with, and samples the loop has not reached carry
    no spike. *)
Definition shape (d : t) (ecg : list Q) (k : nat) (s : loop_state) : Prop :=
  config (det s) = config d /\
  length (v (det s)) = length ecg /\ length (theta (det s)) = length ecg /\
  length (spikes s) = length ecg /\
  forall j, (j = 0 \/ k < j)%nat -> (j < length ecg)%nat -> spikes s !! j = Some 0%Z.

(** The sample indices that carry a spike, in increasing order. *)
Definition spike_indices (sp : list Z) : list nat :=
  filter (fun j => sp !! j = Some 1%Z) (seq 0 (length sp)).

(** Every two neighbours of a list of times are at least [r] apart. *)
Definition gaps_ok (r : Q) (l : list Q) : Prop :=
  forall i s1 s2, l !! i = Some s1 -> l !! S i = Some s2 -> r <= s2 - s1.

(** The invariant of the spike train: [spike_times] lists the stamps of
    the spike samples, neighbours are a refractory period apart, and
    [last_spike_time] belongs to the last spike. *)
Definition train_inv (s : loop_state) : Prop :=
  let dd := det s in
  spike_times dd = map (fun j => of_nat j / fs dd) (spike_indices (spikes s)) /\
  gaps_ok (refractory_s dd) (spike_times dd) /\
  ((last_spike_time s = NEG_1E9 /\ spike_times dd = [] /\
    forall j, spikes s !! j <> Some 1%Z)
   \/
   (exists u l',
      last_spike_time s = of_nat u / fs dd /\
      spike_times dd = l' ++ [of_nat (u + 1) / fs dd] /\
      spikes s !! (u + 1)%nat = Some 1%Z /\
      forall j, (u + 1 < j)%nat -> spikes s !! j <> Some 1%Z)).

(** [theta_base] lies in its clamp range. *)
Definition theta_base_in_range (x : Q) : Prop :=
  THETA_BASE_MIN <= x /\ x <= THETA_BASE_MAX.

(** The floor of the threshold, as an invariant of the loop. *)
Definition floor_inv (s : loop_state) : Prop :=
  theta_base_in_range (theta_base (det s)) /\
  forall i y, theta (det s) !! i = Some y -> THETA_BASE_MIN <= y.


End Vocabulary.

(** The books of the closed loop, as an invariant of its passes. *)
Definition books (s : ClosedLoop.state) : Prop :=
  ClosedLoop.sensed_times s = PacemakerController.sensed_history (ClosedLoop.pacemaker s) /\
  ClosedLoop.paced_times s = ClosedLoop.captured_times s /\
  ClosedLoop.paced_times s
  = map fst (filter (fun p => snd p = true)
               (PacemakerController.pacing_history (ClosedLoop.pacemaker s))).

(** The shape of the closed loop's state. *)
Definition loop_shape (d : AdaptiveLIFDetector.t) (N : nat)
    (s : ClosedLoop.state) : Prop :=
  length (ClosedLoop.spikes s) = N /\ length (ClosedLoop.obs_ecg s) = N /\
  config (ClosedLoop.detector s) = config d.


(** * Properties *)

(** ** Comparisons, loops, sample times *)

Lemma Qgeb_true x y : Qgeb x y = true <-> y <= x.
Proof. unfold Qgeb. apply Qle_bool_iff. Qed.

Lemma Qgeb_false x y : Qgeb x y = false <-> x < y.
Proof.
  unfold Qgeb. rewrite <- not_true_iff_false, Qle_bool_iff.
  split; [apply Qnot_le_lt | apply Qlt_not_le].
Qed.

Lemma Qltb_true x y : Qltb x y = true <-> x < y.
Proof. unfold Qltb. rewrite negb_true_iff. apply Qgeb_false. Qed.

Lemma Qltb_false x y : Qltb x y = false <-> y <= x.
Proof. unfold Qltb. rewrite negb_false_iff. apply Qle_bool_iff. Qed.

Lemma Qgtb_true x y : Qgtb x y = true <-> y < x.
Proof. unfold Qgtb. rewrite negb_true_iff. apply (Qgeb_false y x). Qed.


Lemma for_from_last {St : Type} (body : nat -> St -> St) n i s :
  for_from body i (S n) s = body (i + n)%nat (for_from body i n s).
Proof.
  revert i s. induction n as [|n IH]; intros i s.
  - simpl. now rewrite Nat.add_0_r.
  - change (for_from body i (S (S n)) s)
      with (for_from body (S i) (S n) (body i s)).
    rewrite IH. simpl. now rewrite Nat.add_succ_r.
Qed.

Lemma for_range_S {St : Type} (body : nat -> St -> St) n s :
  for_range (S n) body s = body n (for_range n body s).
Proof. unfold for_range. now rewrite for_from_last. Qed.

Lemma for_fromM_last {St : Type} (body : nat -> St -> result St) n i s :
  for_fromM body i (S n) s = bind (for_fromM body i n s) (body (i + n)%nat).
Proof.
  revert i s. induction n as [|n IH]; intros i s.
  - simpl. rewrite Nat.add_0_r. now destruct (body i s).
  - change (for_fromM body i (S (S n)) s)
      with (bind (body i s) (for_fromM body (S i) (S n))).
    change (for_fromM body i (S n) s)
      with (bind (body i s) (for_fromM body (S i) n)).
    destruct (body i s) as [s'|e]; [|reflexivity].
    unfold bind at 1 3. rewrite IH. simpl. now rewrite Nat.add_succ_r.
Qed.

Lemma for_rangeM_S {St : Type} (body : nat -> St -> result St) n s :
  for_rangeM (S n) body s = bind (for_rangeM n body s) (body n).
Proof. unfold for_rangeM. now rewrite for_fromM_last. Qed.

Lemma of_nat_S n : of_nat (S n) == of_nat n + 1.
Proof.
  unfold of_nat. rewrite Nat2Z.inj_succ, <- Z.add_1_r, inject_Z_plus.
  reflexivity.
Qed.

Lemma of_nat_le i j : (i <= j)%nat -> of_nat i <= of_nat j.
Proof. intros H. unfold of_nat. rewrite <- Zle_Qle. lia. Qed.

Lemma bind_Ok {A B : Type} (m : result A) (k : A -> result B) (b : B) :
  bind m k = Ok b <-> exists a, m = Ok a /\ k a = Ok b.
Proof.
  destruct m as [a|e]; cbn; split.
  - eauto.
  - now intros (a' & [= ->] & H).
  - discriminate.
  - now intros (a' & [=] & _).
Qed.

Lemma get_Ok {A : Type} (a : list A) (i : nat) (x : A) :
  get a i = Ok x <-> a !! i = Some x.
Proof. unfold get. destruct (a !! i); split; congruence. Qed.

Lemma set_Ok {A : Type} (a : list A) (i : nat) (x : A) (a' : list A) :
  set a i x = Ok a' <-> (i < length a)%nat /\ a' = <[i := x]> a.
Proof.
  unfold set. destruct (decide (i < length a)%nat); split.
  - intros [= <-]. auto.
  - now intros [_ ->].
  - discriminate.
  - tauto.
Qed.

Lemma py_div_Ok (x y q : Q) :
  py_div x y = Ok q <-> ~ y == 0 /\ q = x / y.
Proof.
  unfold py_div. destruct (Qeq_bool y 0) eqn:E; split.
  - discriminate.
  - intros [H _]. apply Qeq_bool_iff in E. contradiction.
  - intros [= <-]. split; [|reflexivity]. now apply Qeq_bool_neq.
  - now intros [_ ->].
Qed.

Lemma py_mod_Ok (a b r : Z) :
  py_mod a b = Ok r <-> b <> 0%Z /\ r = Z.modulo a b.
Proof.
  unfold py_mod. destruct (Z.eqb_spec b 0); split.
  - discriminate.
  - tauto.
  - intros [= <-]. auto.
  - now intros [_ ->].
Qed.

Lemma np_clip_bounds (x lo hi : Q) :
  lo <= hi -> lo <= np_clip x lo hi /\ np_clip x lo hi <= hi.
Proof.
  intros H. unfold np_clip. split.
  - apply Q.min_glb; [apply Q.le_max_r | exact H].
  - apply Q.le_min_r.
Qed.

Section SampleTimes.
Import PacemakerController.
Variable fs : Q.
Hypothesis fs_pos : 0 < fs.

Lemma sample_time_S i : sample_time fs (S i) == sample_time fs i + 1 / fs.
Proof.
  unfold sample_time. rewrite of_nat_S. field. intros H. rewrite H in fs_pos.
  now apply Qlt_irrefl in fs_pos.
Qed.

Lemma sample_time_mono i j :
  (i <= j)%nat -> sample_time fs i <= sample_time fs j.
Proof.
  intros H. unfold sample_time, Qdiv.
  apply Qmult_le_compat_r; [now apply of_nat_le|].
  apply Qlt_le_weak, Qinv_lt_0_compat, fs_pos.
Qed.

Lemma sample_time_nonneg i : 0 <= sample_time fs i.
Proof.
  assert (H : sample_time fs 0 == 0) by (unfold sample_time, of_nat; simpl; field;
    intros E; rewrite E in fs_pos; now apply Qlt_irrefl in fs_pos).
  rewrite <- H. apply sample_time_mono. lia.
Qed.
End SampleTimes.

(** ** The controller *)

Section Controller.
Import PacemakerController.

Ltac step_cases c t_s spike :=
  unfold step, sense, pace_phase;
  destruct (spike && Qgeb t_s (blank_until c) && Qgeb t_s (refract_until c))
    eqn:Hsense; cbn [last_event_time escape_interval_s];
  match goal with
  | |- context [Qgeb ?a ?b] => destruct (Qgeb a b) eqn:Hpace
  end; cbn.

Lemma sense_blocked c t_s spike :
  spike = false \/ t_s < blank_until c \/ t_s < refract_until c ->
  spike && Qgeb t_s (blank_until c) && Qgeb t_s (refract_until c) = false.
Proof.
  intros [-> | [H | H]]; [reflexivity | |]; apply Qgeb_false in H; rewrite H.
  - now rewrite andb_false_r.
  - now rewrite andb_false_r.
Qed.

Lemma sense_accepted c t_s spike :
  spike && Qgeb t_s (blank_until c) && Qgeb t_s (refract_until c) = true ->
  spike = true /\ blank_until c <= t_s /\ refract_until c <= t_s.
Proof.
  rewrite !andb_true_iff, !Qgeb_true. tauto.
Qed.

(** [step] never touches the configuration. *)
Lemma step_config c t_s spike draw :
  let c' := fst (step c t_s spike draw) in
  escape_interval_s c' = escape_interval_s c /\
  blanking_s c' = blanking_s c /\
  refractory_s c' = refractory_s c.
Proof. step_cases c t_s spike; auto. Qed.

Lemma drive_S fs spikes draws n c :
  drive fs spikes draws (S n) c =
  fst (step (drive fs spikes draws n c) (sample_time fs n) (spikes n) (draws n)).
Proof. unfold drive. now rewrite for_range_S. Qed.

Lemma drive_config fs spikes draws n c :
  let c' := drive fs spikes draws n c in
  escape_interval_s c' = escape_interval_s c /\
  blanking_s c' = blanking_s c /\
  refractory_s c' = refractory_s c.
Proof.
  induction n as [|n IH]; [now cbn|].
  rewrite drive_S. cbv zeta in *.
  destruct (step_config (drive fs spikes draws n c) (sample_time fs n)
              (spikes n) (draws n)) as (E1 & E2 & E3).
  destruct IH as (I1 & I2 & I3). cbv zeta in *.
  rewrite E1, E2, E3. auto.
Qed.

(** What one call of [step] does to the three timers, by the flags it
    returns. *)
Lemma step_timers c t_s spike draw :
  let c' := fst (step c t_s spike draw) in
  let o := snd (step c t_s spike draw) in
  (event o = true -> last_event_time c' = t_s) /\
  (event o = false -> c' = c /\ t_s - last_event_time c < escape_interval_s c) /\
  (paced o = true -> blank_until c' = t_s + blanking_s c) /\
  (paced o = false -> blank_until c' = blank_until c) /\
  (accepted o = true ->
     refract_until c' = t_s + refractory_s c /\
     blank_until c <= t_s /\ refract_until c <= t_s) /\
  (accepted o = false -> refract_until c' = refract_until c).
Proof.
  step_cases c t_s spike; unfold event, paced, accepted; cbn;
    repeat split; try discriminate; try reflexivity; intros;
    try (apply sense_accepted in Hsense; tauto);
    try (now apply Qgeb_false in Hpace).
Qed.

Lemma default_is_default_controller : default = Ok default_controller.
Proof. reflexivity. Qed.

(** Between two resets, on the simulator's sample times, each timer is
    at most the coming sample time plus its own period. *)
Lemma timers_bounded fs spikes draws c0 i :
  0 < fs ->
  NEG_1E9 <= blanking_s c0 -> NEG_1E9 <= refractory_s c0 ->
  let c := drive fs spikes draws i (reset c0) in
  blank_until c <= sample_time fs i + blanking_s c0 /\
  refract_until c <= sample_time fs i + refractory_s c0.
Proof.
  intros Hfs Hb Hr. induction i as [|i [IHb IHr]]; cbv zeta.
  - pose proof (sample_time_nonneg fs Hfs 0) as H0. cbn. split; lra.
  - rewrite drive_S.
    set (c := drive fs spikes draws i (reset c0)) in *.
    destruct (drive_config fs spikes draws i (reset c0)) as (_ & Eb & Er).
    fold c in Eb, Er. cbn in Eb, Er.
    pose proof (sample_time_S fs Hfs i) as HS.
    assert (0 < 1 / fs) as Hstep.
    { unfold Qdiv. rewrite Qmult_1_l. now apply Qinv_lt_0_compat. }
    destruct (step_timers c (sample_time fs i) (spikes i) (draws i))
      as (_ & _ & Hp1 & Hp0 & Ha1 & Ha0). cbv zeta in *.
    split.
    + destruct (paced (step c (sample_time fs i) (spikes i) (draws i)).2).
      * rewrite Hp1, Eb by reflexivity. lra.
      * rewrite Hp0 by reflexivity. lra.
    + destruct (accepted (step c (sample_time fs i) (spikes i) (draws i)).2).
      * destruct Ha1 as (-> & _); [reflexivity|]. rewrite Er. lra.
      * rewrite Ha0 by reflexivity. lra.
Qed.
End Controller.

Section ControllerRuns.
Import PacemakerController.
Variable fs : Q.
Variables spikes draws : nat -> bool.
Variable c0 : t.
Hypothesis fs_pos : 0 < fs.

Abbreviation state i := (drive fs spikes draws i c0).
Abbreviation out i := (output fs spikes draws c0 i).
Abbreviation time i := (sample_time fs i).

Lemma state_S i :
  state (S i) = fst (step (state i) (time i) (spikes i) (draws i)).
Proof. apply drive_S. Qed.

Lemma state_config i :
  escape_interval_s (state i) = escape_interval_s c0 /\
  blanking_s (state i) = blanking_s c0 /\
  refractory_s (state i) = refractory_s c0.
Proof. apply drive_config. Qed.

(** Once a pace was delivered at step [p], [blank_until] stays at or
    above the end of its blanking window. *)
Lemma blank_after_pace p j :
  paced (out p) = true -> (p < j)%nat ->
  time p + blanking_s c0 <= blank_until (state j).
Proof.
  intros Hp Hlt. induction j as [|j IH]; [lia|].
  rewrite state_S.
  destruct (state_config j) as (_ & Eb & _).
  destruct (step_timers (state j) (time j) (spikes j) (draws j))
    as (_ & _ & Hp1 & Hp0 & _). cbv zeta in *.
  destruct (paced (step (state j) (time j) (spikes j) (draws j)).2) eqn:Hj.
  - rewrite Hp1, Eb by reflexivity.
    assert (time p <= time j) by (apply sample_time_mono; [assumption | lia]).
    lra.
  - rewrite Hp0 by reflexivity.
    destruct (decide (p = j)) as [->|Hne].
    + unfold output in Hp. congruence.
    + apply IH. lia.
Qed.

(** Once a sense was accepted at step [a], [refract_until] stays at or
    above the end of its refractory window. *)
Lemma refract_after_sense a j :
  accepted (out a) = true -> (a < j)%nat ->
  time a + refractory_s c0 <= refract_until (state j).
Proof.
  intros Ha Hlt. induction j as [|j IH]; [lia|].
  rewrite state_S.
  destruct (state_config j) as (_ & _ & Er).
  destruct (step_timers (state j) (time j) (spikes j) (draws j))
    as (_ & _ & _ & _ & Ha1 & Ha0). cbv zeta in *.
  destruct (accepted (step (state j) (time j) (spikes j) (draws j)).2) eqn:Hj.
  - destruct Ha1 as (-> & _); [reflexivity|]. rewrite Er.
    assert (time a <= time j) by (apply sample_time_mono; [assumption | lia]).
    lra.
  - rewrite Ha0 by reflexivity.
    destruct (decide (a = j)) as [->|Hne].
    + unfold output in Ha. congruence.
    + apply IH. lia.
Qed.

(** A spike presented while [t_s] is below one of the timers is not
    accepted. *)
Lemma not_accepted_below c t_s spike draw :
  t_s < blank_until c \/ t_s < refract_until c ->
  accepted (snd (step c t_s spike draw)) = false.
Proof.
  intros H.
  destruct (step_timers c t_s spike draw) as (_ & _ & _ & _ & Ha1 & _).
  cbv zeta in Ha1.
  destruct (accepted (step c t_s spike draw).2); [|reflexivity].
  destruct Ha1 as (_ & Hb & Hr); [reflexivity|].
  destruct H as [H | H]; lra.
Qed.

End ControllerRuns.

(** ** The controller inside the closed loop *)

Section ClosedLoopController.
Import PacemakerController.

Lemma drive_ext fs (f g : nat -> bool) draws n c :
  (forall i, (i < n)%nat -> f i = g i) ->
  drive fs f draws n c = drive fs g draws n c.
Proof.
  induction n as [|n IH]; intros H; [reflexivity|].
  rewrite !drive_S, IH, H by auto with lia. reflexivity.
Qed.

(** What a pass of the closed loop does to the controller: one [step] at
    [i / fs] on the flag [spikes[i] == 1]. *)
Lemma closed_loop_body_pacemaker fs N draws i s s' :
  ClosedLoop.body fs N draws i s = Ok s' ->
  exists sp,
    ClosedLoop.spikes s !! i = Some sp /\
    ClosedLoop.pacemaker s'
    = fst (step (ClosedLoop.pacemaker s) (sample_time fs i) (Z.eqb sp 1) (draws i)).
Proof.
  unfold ClosedLoop.body. intros (sp & Hsp%get_Ok & H)%bind_Ok.
  exists sp. split; [assumption|].
  destruct (step _ _ _ _) as [pm [[pace captured] accepted]]. cbn [fst].
  destruct (pace && captured).
  - apply bind_Ok in H as ([d' [[[I' v'] th'] sp']] & _ & [= <-]). reflexivity.
  - now injection H as <-.
Qed.

(** The controller of the closed loop goes through the states of [drive]
    for the spike flags the loop reads. *)
Lemma closed_loop_pacemaker_is_drive fs N draws n s0 sn :
  for_rangeM n (ClosedLoop.body fs N draws) s0 = Ok sn ->
  exists flags : nat -> bool,
    forall k sk,
      (k <= n)%nat ->
      for_rangeM k (ClosedLoop.body fs N draws) s0 = Ok sk ->
      ClosedLoop.pacemaker sk
      = drive fs flags draws k (ClosedLoop.pacemaker s0).
Proof.
  revert sn. induction n as [|n IH]; intros sn Hn.
  - exists (fun _ => false). intros k sk Hk Hsk.
    assert (k = 0)%nat as -> by lia. now injection Hsk as <-.
  - rewrite for_rangeM_S in Hn. apply bind_Ok in Hn as (s & Hs & Hb).
    destruct (IH s Hs) as [flags Hflags].
    apply closed_loop_body_pacemaker in Hb as Hpm. destruct Hpm as (sp & _ & Hpm).
    exists (fun i => if decide (i = n) then Z.eqb sp 1 else flags i).
    intros k sk Hk Hsk.
    destruct (decide (k = S n)) as [->|Hne].
    + rewrite for_rangeM_S, Hs in Hsk. cbn in Hsk. rewrite Hb in Hsk.
      injection Hsk as <-. rewrite drive_S, Hpm.
      destruct (decide (n = n)); [|congruence].
      rewrite (Hflags n s) by (lia || assumption).
      f_equal. f_equal. apply drive_ext.
      intros i Hi. destruct (decide (i = n)); [lia | reflexivity].
    + rewrite (Hflags k sk) by (lia || assumption).
      apply drive_ext. intros i Hi. destruct (decide (i = n)); [lia | reflexivity].
Qed.
End ClosedLoopController.

(** ** Claims about the controller *)


(** C10. Quiescent step: when no sense can be accepted (no detector spike,
    or the spike falls before [blank_until] or before [refract_until]) and
    the escape interval has not elapsed, [step] returns
    [(False, False, False)] and leaves the controller as it was, in
    particular [last_event_time], [blank_until], [refract_until],
    [pacing_history] and [sensed_history]. *)
Theorem C10_quiescent_step_frame
    (c : PacemakerController.t) (t_s : Q) (detector_spike draw : bool) :
  detector_spike = false \/
    t_s < PacemakerController.blank_until c \/
    t_s < PacemakerController.refract_until c ->
  t_s - PacemakerController.last_event_time c
    < PacemakerController.escape_interval_s c ->
  let c' := fst (PacemakerController.step c t_s detector_spike draw) in
  PacemakerController.step c t_s detector_spike draw = (c, (false, false, false)) /\
  PacemakerController.last_event_time c' = PacemakerController.last_event_time c /\
  PacemakerController.blank_until c' = PacemakerController.blank_until c /\
  PacemakerController.refract_until c' = PacemakerController.refract_until c /\
  PacemakerController.pacing_history c' = PacemakerController.pacing_history c /\
  PacemakerController.sensed_history c' = PacemakerController.sensed_history c.
Proof.
  intros Hblocked Hescape.
  assert (E : PacemakerController.step c t_s detector_spike draw
              = (c, (false, false, false))).
  { unfold PacemakerController.step, PacemakerController.sense,
      PacemakerController.pace_phase.
    rewrite (sense_blocked c t_s detector_spike Hblocked).
    apply Qgeb_false in Hescape. now rewrite Hescape. }
  cbv zeta. rewrite E. cbn. repeat split; reflexivity.
Qed.

(** A controller that paced at time 0 and is offered a spike one sample
    later, inside the blanking window. *)
Lemma C10_quiescent_step_frame_witness :
  let c := fst (PacemakerController.step
                  PacemakerController.default_controller 0 false true) in
  PacemakerController.step c (1 # 250) true false = (c, (false, false, false)).
Proof.
  cbv zeta.
  apply (C10_quiescent_step_frame
           (fst (PacemakerController.step
                   PacemakerController.default_controller 0 false true))
           (1 # 250) true false).
  - right; left. vm_compute. reflexivity.
  - vm_compute. reflexivity.
Defined.

(** C7. Between two resets, on the simulator's sample times [i / fs], no
    call of [step] lowers [blank_until] or [refract_until].  ([fs] is a
    positive rate and the two periods are at least the sentinel [-1e9].) *)
Theorem C7_timers_never_decrease
    (fs : Q) (spikes draws : nat -> bool) (c0 : PacemakerController.t) (i : nat) :
  0 < fs ->
  NEG_1E9 <= PacemakerController.blanking_s c0 ->
  NEG_1E9 <= PacemakerController.refractory_s c0 ->
  let c := PacemakerController.drive fs spikes draws i
             (PacemakerController.reset c0) in
  let c' := fst (PacemakerController.step c
                   (PacemakerController.sample_time fs i) (spikes i) (draws i)) in
  PacemakerController.blank_until c <= PacemakerController.blank_until c' /\
  PacemakerController.refract_until c <= PacemakerController.refract_until c'.
Proof.
  intros Hfs Hb Hr c c'.
  destruct (timers_bounded fs spikes draws c0 i Hfs Hb Hr) as [Bb Br].
  fold c in Bb, Br.
  destruct (drive_config fs spikes draws i (PacemakerController.reset c0))
    as (_ & Eb & Er).
  fold c in Eb, Er. cbn in Eb, Er.
  destruct (step_timers c (PacemakerController.sample_time fs i) (spikes i) (draws i))
    as (_ & _ & Hp1 & Hp0 & Ha1 & Ha0). cbv zeta in *. fold c' in Hp1, Hp0, Ha1, Ha0.
  split.
  - destruct (PacemakerController.paced _).
    + rewrite Hp1, Eb by reflexivity. exact Bb.
    + rewrite Hp0 by reflexivity. apply Qle_refl.
  - destruct (PacemakerController.accepted _).
    + destruct Ha1 as (-> & _); [reflexivity|]. rewrite Er. exact Br.
    + rewrite Ha0 by reflexivity. apply Qle_refl.
Qed.

(** The default controller paces at step 300 (1.2 s) of a silent run. *)
Lemma C7_timers_never_decrease_witness :
  let c := PacemakerController.drive 250 (fun _ => false) (fun _ => true) 300
             (PacemakerController.reset PacemakerController.default_controller) in
  let c' := fst (PacemakerController.step c
                   (PacemakerController.sample_time 250 300) false true) in
  PacemakerController.blank_until c <= PacemakerController.blank_until c' /\
  PacemakerController.refract_until c <= PacemakerController.refract_until c'.
Proof.
  apply (C7_timers_never_decrease 250 (fun _ => false) (fun _ => true)
           PacemakerController.default_controller 300).
  - reflexivity.
  - vm_compute. discriminate.
  - vm_compute. discriminate.
Defined.

(** The flags of [step] in terms of its two phases. *)
Lemma step_flags (c : PacemakerController.t) (t_s : Q) (spike draw : bool) :
  let c1 := fst (PacemakerController.sense c t_s spike) in
  let o := snd (PacemakerController.step c t_s spike draw) in
  PacemakerController.accepted o = snd (PacemakerController.sense c t_s spike) /\
  PacemakerController.paced o =
    Qgeb (t_s - PacemakerController.last_event_time c1)
         (PacemakerController.escape_interval_s c) /\
  (PacemakerController.accepted o = false -> c1 = c).
Proof.
  unfold PacemakerController.step, PacemakerController.sense,
    PacemakerController.pace_phase.
  destruct (spike && _ && _); cbn;
    match goal with
    | |- context [Qgeb ?a ?b] => destruct (Qgeb a b)
    end; cbn; repeat split; congruence.
Qed.

(** C3, as stated, fails: the default controller paces at [t = 0], which
    opens the 40 ms blanking window only; a spike at [t = 0.1 s], inside
    the 200 ms refractory period counted from the pace, is accepted. *)
Lemma C3_counterexample :
  let c0 := PacemakerController.default_controller in
  let spikes := fun i => Nat.eqb i 25 in
  let draws := fun _ : nat => true in
  let t_p := PacemakerController.sample_time 250 0 in
  let t_s := PacemakerController.sample_time 250 25 in
  PacemakerController.paced (PacemakerController.output 250 spikes draws c0 0) = true /\
  t_p <= t_s /\
  t_s < t_p + PacemakerController.refractory_s c0 /\
  PacemakerController.accepted (PacemakerController.output 250 spikes draws c0 25) = true.
Proof. vm_compute. repeat split; discriminate. Qed.

(** C3, amended. On the simulator's sample times, after a pace at step [p]
    a detector spike at a later step [s] is not accepted while
    [time s < time p + blanking_s]; the refractory window
    [time s < time p + refractory_s] suppresses the sense when step [p]
    accepted a sense. *)
Theorem C3_sense_suppressed_after_event
    (fs : Q) (spikes draws : nat -> bool) (c0 : PacemakerController.t) (p s : nat) :
  0 < fs -> (p < s)%nat ->
  (PacemakerController.paced (PacemakerController.output fs spikes draws c0 p) = true /\
   PacemakerController.sample_time fs s
     < PacemakerController.sample_time fs p + PacemakerController.blanking_s c0)
  \/
  (PacemakerController.accepted (PacemakerController.output fs spikes draws c0 p) = true /\
   PacemakerController.sample_time fs s
     < PacemakerController.sample_time fs p + PacemakerController.refractory_s c0) ->
  PacemakerController.accepted (PacemakerController.output fs spikes draws c0 s) = false.
Proof.
  intros Hfs Hlt H. unfold PacemakerController.output at 1.
  apply not_accepted_below.
  destruct H as [[Hp Hs] | [Ha Hs]].
  - left. pose proof (blank_after_pace fs spikes draws c0 Hfs p s Hp Hlt) as B.
    cbv zeta in B. lra.
  - right. pose proof (refract_after_sense fs spikes draws c0 Hfs p s Ha Hlt) as B.
    cbv zeta in B. lra.
Qed.

(** The default controller paces at step 0; a spike at step 5 (20 ms) is
    blanked. *)
Lemma C3_sense_suppressed_after_event_witness :
  PacemakerController.accepted
    (PacemakerController.output 250 (fun i => Nat.eqb i 5) (fun _ => true)
       PacemakerController.default_controller 5) = false.
Proof.
  apply (C3_sense_suppressed_after_event 250 (fun i => Nat.eqb i 5) (fun _ => true)
           PacemakerController.default_controller 0 5).
  - reflexivity.
  - lia.
  - left. split; vm_compute; reflexivity.
Defined.



(** ** The detector: one pass of the sample loop *)

Section DetectorStep.
Import AdaptiveLIFDetector.

Lemma config_fields d d' :
  config d' = config d ->
  fs d' = fs d /\ dt d' = dt d /\ tau_m d' = tau_m d /\
  tau_theta d' = tau_theta d /\ theta_inc d' = theta_inc d /\
  v_reset d' = v_reset d /\ v_rest d' = v_rest d /\
  refractory_s d' = refractory_s d /\ homeo_window_s d' = homeo_window_s d.
Proof. destruct d, d'. cbv. intros [=]. subst. repeat split. Qed.

Lemma fires_true d last now v_new theta_t :
  fires d last now v_new theta_t = true <->
  refractory_s d <= now - last /\ theta_t <= v_new.
Proof.
  unfold fires. now rewrite andb_true_iff, negb_true_iff, Qltb_false, Qgeb_true.
Qed.

(** What [lif_step] computes, read off its text. *)
Lemma lif_step_Ok I_t k s s' :
  lif_step I_t k s = Ok s' ->
  exists v_t I theta_t,
    v (det s) !! k = Some v_t /\ I_t !! k = Some I /\
    theta (det s) !! k = Some theta_t /\
    ~ fs (det s) == 0 /\
    (k + 1 < length (v (det s)))%nat /\ (k + 1 < length (theta (det s)))%nat /\
    let d := det s in
    let now := of_nat k / fs d in
    let pot := integrated d v_t I in
    if fires d (last_spike_time s) now pot theta_t
    then (k + 1 < length (spikes s))%nat /\
         s' = mkLoop
                (with_spike_times
                   (with_arrays d (<[(k + 1)%nat := v_reset d]> (v d))
                      (<[(k + 1)%nat := theta_t + theta_inc d]> (theta d)))
                   (spike_times d ++ [of_nat (k + 1) / fs d]))
                (<[(k + 1)%nat := 1%Z]> (spikes s)) now
    else s' = mkLoop
                (with_arrays d (<[(k + 1)%nat := pot]> (v d))
                   (<[(k + 1)%nat := relaxed d theta_t]> (theta d)))
                (spikes s) (last_spike_time s).
Proof.
  unfold lif_step. intros H.
  apply bind_Ok in H as (v_t & Hv%get_Ok & H).
  apply bind_Ok in H as (I & HI%get_Ok & H).
  apply bind_Ok in H as (v1 & (Hlen & ->)%set_Ok & H).
  apply bind_Ok in H as (now & (Hfs & ->)%py_div_Ok & H).
  apply bind_Ok in H as (theta_t & Hth%get_Ok & H).
  exists v_t, I, theta_t. do 5 (split; [assumption|]).
  fold (integrated (det s) v_t I) in H |- *.
  fold (fires (det s) (last_spike_time s) (of_nat k / fs (det s))
          (integrated (det s) v_t I) theta_t) in H.
  cbv zeta.
  destruct (fires _ _ _ _ _).
  - apply bind_Ok in H as (sp1 & (Hsp & ->)%set_Ok & H).
    apply bind_Ok in H as (v2 & (_ & ->)%set_Ok & H).
    apply bind_Ok in H as (th1 & (Hth1 & ->)%set_Ok & H).
    apply bind_Ok in H as (stamp & (_ & ->)%py_div_Ok & H).
    injection H as <-. rewrite list_insert_insert_eq. auto.
  - apply bind_Ok in H as (th1 & (Hth1 & ->)%set_Ok & H).
    injection H as <-. auto.
Qed.
End DetectorStep.

Section DetectorPass.
Import AdaptiveLIFDetector.

Lemma homeo_update_bounds d k tb :
  homeo_update d k = Ok tb -> THETA_BASE_MIN <= tb /\ tb <= THETA_BASE_MAX.
Proof.
  unfold homeo_update. intros H.
  apply bind_Ok in H as (now & _ & H).
  apply bind_Ok in H as (rate & _ & H).
  injection H as <-. apply np_clip_bounds. discriminate.
Qed.

Lemma homeostasis_Ok k s s' :
  homeostasis k s = Ok s' ->
  exists due, homeo_due (det s) k = Ok due /\
    if due
    then exists tb, homeo_update (det s) k = Ok tb /\
           s' = mkLoop (with_theta_base (det s) tb) (spikes s) (last_spike_time s)
    else s' = s.
Proof.
  unfold homeostasis. intros H.
  apply bind_Ok in H as (due & Hdue & H). exists due. split; [assumption|].
  destruct due.
  - apply bind_Ok in H as (tb & Htb & H). injection H as <-. eauto.
  - now injection H as <-.
Qed.

(** [homeostasis] rewrites [theta_base] and nothing else. *)
Lemma homeostasis_frame k s s' :
  homeostasis k s = Ok s' ->
  config (det s') = config (det s) /\
  v (det s') = v (det s) /\ theta (det s') = theta (det s) /\
  spike_times (det s') = spike_times (det s) /\
  spikes s' = spikes s /\ last_spike_time s' = last_spike_time s.
Proof.
  intros (due & _ & H)%homeostasis_Ok. destruct due.
  - destruct H as (tb & _ & ->). destruct s as [d sp l]. destruct d.
    cbn. repeat split.
  - subst. repeat split.
Qed.

Lemma body_pass I_t k s s' : body I_t k s = Ok s' -> pass I_t k s s'.
Proof.
  unfold body. intros (s1 & Hlif & Hhom)%bind_Ok.
  apply homeostasis_frame in Hhom as (Ec & Ev & Eth & Est & Esp & El).
  apply lif_step_Ok in Hlif
    as (v_t & I & theta_t & Hv & HI & Hth & Hfs & Lv & Lth & H).
  cbv zeta in H. unfold pass. cbv zeta.
  rewrite Ec, Ev, Eth, Est, Esp, El. clear Ec Ev Eth Est Esp El s'.
  destruct (fires _ _ _ _ _) eqn:F.
  - destruct H as (Lsp & ->). destruct s as [d sp l]. cbn in *.
    split; [now destruct d|]. rewrite !length_insert.
    do 3 (split; [reflexivity|]).
    split.
    { intros j Hj. rewrite !list_lookup_insert_ne by congruence.
      destruct d; cbn. auto. }
    exists v_t, I, theta_t. do 4 (split; [assumption|]).
    left. rewrite F. destruct d; cbn in *.
    rewrite !list_lookup_insert_eq by assumption. repeat split.
  - subst s1. destruct s as [d sp l]. cbn in *.
    split; [now destruct d|].
    split; [destruct d; cbn; now rewrite length_insert|].
    split; [destruct d; cbn; now rewrite length_insert|].
    split; [reflexivity|].
    split.
    { intros j Hj. destruct d; cbn.
      rewrite !list_lookup_insert_ne by congruence. auto. }
    exists v_t, I, theta_t. do 4 (split; [assumption|]).
    right. rewrite F. destruct d; cbn in *.
    rewrite !list_lookup_insert_eq by assumption. repeat split.
Qed.
End DetectorPass.

(** ** The detector: the sample loop *)

Section DetectorLoop.
Import AdaptiveLIFDetector.
Variable d : t.
Variable ecg : list Q.

Abbreviation T := (length ecg).

Lemma run_upto_0 I_t s :
  run_upto d ecg 0 = Ok (I_t, s) <->
  drive_current d ecg = Ok I_t /\ s = loop_init d T.
Proof.
  unfold run_upto, for_rangeM. cbn. split.
  - intros (I' & HI & [= -> ->])%bind_Ok. auto.
  - intros [-> ->]. reflexivity.
Qed.

Lemma run_upto_S k I_t s' :
  run_upto d ecg (S k) = Ok (I_t, s') <->
  exists s, run_upto d ecg k = Ok (I_t, s) /\ body I_t k s = Ok s'.
Proof.
  unfold run_upto. split.
  - intros (I' & HI & H)%bind_Ok.
    apply bind_Ok in H as (s1 & H & [= -> ->]).
    rewrite for_rangeM_S in H. apply bind_Ok in H as (s & Hs & Hb).
    exists s. rewrite HI. cbn -[for_rangeM]. rewrite Hs. cbn. auto.
  - intros (s & (I' & HI & H)%bind_Ok & Hb).
    apply bind_Ok in H as (s1 & H & [= -> ->]).
    rewrite HI. cbn -[for_rangeM]. rewrite for_rangeM_S, H. cbn. now rewrite Hb.
Qed.

(** Induction along the passes of a run. *)
Lemma run_upto_ind (I_t : list Q) (P : nat -> loop_state -> Prop) :
  P O (loop_init d T) ->
  (forall k s s',
     run_upto d ecg k = Ok (I_t, s) -> P k s -> body I_t k s = Ok s' ->
     P (S k) s') ->
  forall n s, run_upto d ecg n = Ok (I_t, s) -> P n s.
Proof.
  intros H0 HS. induction n as [|n IH]; intros s H.
  - apply run_upto_0 in H as [_ ->]. exact H0.
  - apply run_upto_S in H as (s0 & H & Hb). eauto.
Qed.

(** A run that reaches pass [n] has been through every pass before. *)
Lemma run_upto_prefix I_t n s k :
  run_upto d ecg n = Ok (I_t, s) -> (k <= n)%nat ->
  exists sk, run_upto d ecg k = Ok (I_t, sk).
Proof.
  revert s. induction n as [|n IH]; intros s H Hk.
  - assert (k = 0)%nat as -> by lia. eauto.
  - destruct (decide (k = S n)) as [->|Hne]; [eauto|].
    apply run_upto_S in H as (s0 & H & _). apply (IH s0 H). lia.
Qed.

Lemma shape_init : shape d ecg 0 (loop_init d T).
Proof.
  unfold shape, loop_init, reset. destruct d. cbn.
  rewrite !length_replicate. repeat split.
  intros j _ Hj. now apply lookup_replicate_2.
Qed.

Lemma shape_pass I_t k s s' :
  shape d ecg k s -> pass I_t k s s' -> shape d ecg (S k) s'.
Proof.
  intros (Ec & Lv & Lth & Lsp & Hz) (Ec' & Lv' & Lth' & Lsp' & Hfr & _).
  unfold shape. rewrite Ec', Lv', Lth', Lsp'. do 4 (split; [assumption|]).
  intros j Hj HT. destruct (Hfr j) as (_ & _ & ->); [lia|].
  apply Hz; [lia | assumption].
Qed.

Lemma run_upto_shape I_t n s :
  run_upto d ecg n = Ok (I_t, s) -> shape d ecg n s.
Proof.
  apply (run_upto_ind I_t (shape d ecg)); [exact shape_init|].
  intros k s0 s' _ Hs Hb.
  exact (shape_pass I_t k s0 s' Hs (body_pass I_t k s0 s' Hb)).
Qed.

(** Pass [k] exists only when sample [k + 1] does. *)
Lemma run_upto_S_bound I_t k s :
  run_upto d ecg (S k) = Ok (I_t, s) -> (k + 1 < T)%nat.
Proof.
  intros H. pose proof (run_upto_shape _ _ _ H) as (_ & Lv & _).
  apply run_upto_S in H as (s0 & _ & Hb).
  apply body_pass in Hb as (_ & _ & _ & _ & _ & v_t & I & th & _ & _ & _ & _ & Hc).
  cbv zeta in Hc. rewrite <- Lv.
  destruct Hc as [(_ & _ & Hv & _) | (_ & _ & Hv & _)];
    now apply lookup_lt_Some in Hv.
Qed.
End DetectorLoop.

(** ** Spike trains *)

Lemma filter_ext_elem {A : Type} (P1 P2 : A -> Prop)
    `{!forall x, Decision (P1 x), !forall x, Decision (P2 x)} (l : list A) :
  (forall x, x ∈ l -> P1 x <-> P2 x) -> filter P1 l = filter P2 l.
Proof.
  induction l as [|a l IH]; intros Hext; [reflexivity|].
  assert (Ha : P1 a <-> P2 a) by (apply Hext; left).
  assert (Hl : filter P1 l = filter P2 l).
  { apply IH. intros x Hx. apply Hext. now right. }
  destruct (decide (P1 a)).
  - rewrite !filter_cons_True by tauto. now rewrite Hl.
  - rewrite !filter_cons_False by tauto. exact Hl.
Qed.

Lemma filter_none {A : Type} (P : A -> Prop) `{!forall x, Decision (P x)}
    (l : list A) :
  (forall x, x ∈ l -> ~ P x) -> filter P l = [].
Proof.
  induction l as [|a l IH]; intros Hno; [reflexivity|].
  rewrite filter_cons_False by (apply Hno; left).
  apply IH. intros x Hx. apply Hno. now right.
Qed.

Lemma lookup_last_snoc {A : Type} (l : list A) (i : nat) (x : A) :
  l !! i = Some x -> S i = length l -> exists l', l = l' ++ [x].
Proof.
  intros Hx Hi. exists (take i l).
  rewrite <- (take_drop_middle l i x Hx) at 1.
  now rewrite (drop_ge l (S i)) by lia.
Qed.

Lemma elem_of_spike_indices (sp : list Z) (j : nat) :
  j ∈ spike_indices sp <-> sp !! j = Some 1%Z.
Proof.
  unfold spike_indices. rewrite list_elem_of_filter, elem_of_seq.
  split; [tauto|]. intros H. split; [assumption|].
  apply lookup_lt_Some in H. lia.
Qed.

(** Writing a spike at [k + 1], above every spike there is, appends
    [k + 1] to the indices. *)
Lemma spike_indices_fire (sp sp' : list Z) (k : nat) :
  length sp' = length sp ->
  (forall j, j <> (k + 1)%nat -> sp' !! j = sp !! j) ->
  sp' !! (k + 1)%nat = Some 1%Z ->
  (forall j, (k < j)%nat -> (j < length sp)%nat -> sp !! j = Some 0%Z) ->
  spike_indices sp' = spike_indices sp ++ [(k + 1)%nat].
Proof.
  intros Hlen Hfr H1 Hz. unfold spike_indices. rewrite Hlen.
  assert (Hk : (k + 1 < length sp)%nat).
  { rewrite <- Hlen. now apply lookup_lt_Some in H1. }
  assert (E : length sp = ((k + 1) + S (length sp - (k + 2)))%nat) by lia.
  rewrite E at 1 2. rewrite seq_app. cbn [seq]. rewrite !filter_app.
  rewrite (filter_cons_True (fun j => sp' !! j = Some 1%Z)) by exact H1.
  rewrite (filter_cons_False (fun j => sp !! j = Some 1%Z)).
  2:{ rewrite Hz by lia. discriminate. }
  rewrite (filter_none (fun j => sp' !! j = Some 1%Z) (seq (S _) _)).
  2:{ intros x Hx%elem_of_seq. rewrite Hfr by lia. rewrite Hz by lia.
      discriminate. }
  rewrite (filter_none (fun j => sp !! j = Some 1%Z) (seq (S _) _)).
  2:{ intros x Hx%elem_of_seq. rewrite Hz by lia. discriminate. }
  rewrite app_nil_r. f_equal.
  apply filter_ext_elem. intros x Hx%elem_of_seq. rewrite Hfr by lia. tauto.
Qed.

Lemma gaps_ok_nil (r : Q) : gaps_ok r [].
Proof. intros i s1 s2 H. discriminate. Qed.

Lemma gaps_ok_snoc (r : Q) (l : list Q) (y : Q) :
  gaps_ok r l ->
  (forall l' x, l = l' ++ [x] -> r <= y - x) ->
  gaps_ok r (l ++ [y]).
Proof.
  intros Hl Hlast i s1 s2 H1 H2.
  destruct (decide (S i < length l)%nat) as [Hlt|Hge].
  - rewrite lookup_app_l in H1 by lia. rewrite lookup_app_l in H2 by lia.
    eauto.
  - assert (Hi : S i = length l).
    { apply lookup_lt_Some in H2. rewrite length_app in H2. cbn in H2. lia. }
    rewrite lookup_app_l in H1 by lia.
    rewrite lookup_app_r, Hi, Nat.sub_diag in H2 by lia.
    injection H2 as <-.
    destruct (lookup_last_snoc l i s1 H1 Hi) as (l' & ->).
    eauto.
Qed.

Lemma stamp_gap (k u : nat) (f : Q) :
  of_nat (k + 1) / f - of_nat (u + 1) / f == of_nat k / f - of_nat u / f.
Proof.
  rewrite !Nat.add_1_r, !of_nat_S. unfold Qdiv. ring.
Qed.

Section DetectorTrain.
Import AdaptiveLIFDetector.
Variable d : t.
Variable ecg : list Q.

Abbreviation T := (length ecg).

(** Pass [m] writes sample [m + 1] only: what a later state holds at a
    sample [j <= k] is what the state after [k] passes held. *)
Lemma frame_later I_t n sn k sk j :
  run_upto d ecg n = Ok (I_t, sn) -> run_upto d ecg k = Ok (I_t, sk) ->
  (k <= n)%nat -> (j <= k)%nat ->
  v (det sn) !! j = v (det sk) !! j /\
  theta (det sn) !! j = theta (det sk) !! j /\
  spikes sn !! j = spikes sk !! j.
Proof.
  revert sn. induction n as [|n IH]; intros sn Hn Hk Hkn Hj.
  - assert (k = 0)%nat as -> by lia. rewrite Hn in Hk. now injection Hk as <-.
  - destruct (decide (k = S n)) as [->|Hne].
    + rewrite Hn in Hk. now injection Hk as <-.
    + apply run_upto_S in Hn as (s0 & H0 & Hb).
      destruct (IH s0 H0 Hk) as (Ev & Eth & Esp); [lia | lia |].
      apply body_pass in Hb as (_ & _ & _ & _ & Hfr & _).
      destruct (Hfr j) as (-> & -> & ->); [lia | auto].
Qed.

(** Later passes only append to [spike_times]. *)
Lemma spike_times_later I_t n sn k sk :
  run_upto d ecg n = Ok (I_t, sn) -> run_upto d ecg k = Ok (I_t, sk) ->
  (k <= n)%nat ->
  exists rest, spike_times (det sn) = spike_times (det sk) ++ rest.
Proof.
  revert sn. induction n as [|n IH]; intros sn Hn Hk Hkn.
  - assert (k = 0)%nat as -> by lia. rewrite Hn in Hk. injection Hk as <-.
    exists []. now rewrite app_nil_r.
  - destruct (decide (k = S n)) as [->|Hne].
    + rewrite Hn in Hk. injection Hk as <-. exists []. now rewrite app_nil_r.
    + apply run_upto_S in Hn as (s0 & H0 & Hb).
      destruct (IH s0 H0 Hk) as (rest & E); [lia|].
      apply body_pass in Hb
        as (_ & _ & _ & _ & _ & v_t & I & th & _ & _ & _ & _ & Hc).
      cbv zeta in Hc.
      destruct Hc as [(_ & _ & _ & _ & -> & _) | (_ & _ & _ & _ & -> & _)].
      * rewrite E, <- app_assoc. eauto.
      * eauto.
Qed.

Lemma train_inv_init : train_inv (loop_init d T).
Proof.
  assert (Hz : forall j, replicate T 0%Z !! j <> Some 1%Z).
  { intros j Hj. apply lookup_replicate in Hj as [[=] _]. }
  unfold train_inv, loop_init, reset. destruct d. cbn. split; [|split].
  - unfold spike_indices. now rewrite filter_none by (intros x _; apply Hz).
  - apply gaps_ok_nil.
  - left. auto.
Qed.

Lemma train_inv_pass I_t k s s' :
  shape d ecg k s -> train_inv s -> pass I_t k s s' -> train_inv s'.
Proof.
  intros (_ & _ & _ & Lsp & Hz) (Hmap & Hgap & Hlast)
         (Ec & _ & _ & Lsp' & Hfr & v_t & I & th & _ & _ & _ & Hfs & Hc).
  cbv zeta in Hc.
  apply config_fields in Ec as (Efs & _ & _ & _ & _ & _ & _ & Er & _).
  unfold train_inv. cbv zeta. rewrite Efs, Er.
  destruct Hc as [(F & H1 & _ & _ & Est & El) | (_ & Esp & _ & _ & Est & El)].
  - apply fires_true in F as [Fr _].
    assert (Hidx : spike_indices (spikes s')
                   = spike_indices (spikes s) ++ [(k + 1)%nat]).
    { apply spike_indices_fire; [assumption | | assumption |].
      - intros j Hj. now destruct (Hfr j Hj) as (_ & _ & ->).
      - intros j Hj HT. apply Hz; [lia | now rewrite <- Lsp]. }
    rewrite Est, El, Hidx, map_app, <- Hmap. cbn [map]. split; [reflexivity|].
    split.
    + apply gaps_ok_snoc; [assumption|]. intros l' x Ex.
      destruct Hlast as [(_ & Enil & _) | (u & l0 & Eu & Etail & _)].
      * rewrite Ex in Enil. now destruct l'.
      * rewrite Etail in Ex. apply app_inj_tail in Ex as [_ <-].
        rewrite stamp_gap. now rewrite <- Eu.
    + right. exists k, (spike_times (det s)). repeat split; [assumption|].
      intros j Hj. destruct (Hfr j) as (_ & _ & ->); [lia|].
      destruct (decide (j < T)%nat) as [HT|HT].
      * rewrite Hz by (assumption || lia). discriminate.
      * rewrite (lookup_ge_None_2 (spikes s) j) by lia. discriminate.
  - rewrite Est, El, Esp. auto.
Qed.

Lemma run_upto_train I_t n s :
  run_upto d ecg n = Ok (I_t, s) -> train_inv s.
Proof.
  apply (run_upto_ind d ecg I_t (fun _ s => train_inv s)); [exact train_inv_init|].
  intros k s0 s' H0 Hs Hb.
  exact (train_inv_pass I_t k s0 s' (run_upto_shape d ecg I_t k s0 H0) Hs
           (body_pass I_t k s0 s' Hb)).
Qed.
End DetectorTrain.

(** ** The detector: preprocessing and totality *)









Section DetectorTotal.
Import AdaptiveLIFDetector.



Lemma drive_current_total (d : t) (ecg : list Q) :
  ecg <> [] -> exists I_t, drive_current d ecg = Ok I_t.
Proof.
  destruct ecg as [|x ecg]; [congruence|]. intros _.
  unfold drive_current. cbn. eauto.
Qed.

Lemma drive_current_length (d : t) (ecg I_t : list Q) :
  drive_current d ecg = Ok I_t -> length I_t = length ecg.
Proof.
  unfold drive_current. intros (mn & _ & H)%bind_Ok.
  apply bind_Ok in H as (mx & _ & [= <-]).
  rewrite !length_map. unfold unit_range.
  destruct (Qgtb mx 0); now rewrite ?length_map.
Qed.
End DetectorTotal.



Lemma get_total {A : Type} (a : list A) (i : nat) :
  (i < length a)%nat -> exists x, get a i = Ok x.
Proof.
  intros [x Hx]%lookup_lt_is_Some. exists x. now apply get_Ok.
Qed.

Lemma set_total {A : Type} (a : list A) (i : nat) (x : A) :
  (i < length a)%nat -> set a i x = Ok (<[i := x]> a).
Proof. intros H. now apply set_Ok. Qed.

Lemma py_div_total (x y : Q) : ~ y == 0 -> py_div x y = Ok (x / y).
Proof. intros H. now apply py_div_Ok. Qed.

Lemma py_max_floor (a b : Q) : a <= py_max a b.
Proof.
  unfold py_max. destruct (Qgtb b a) eqn:E.
  - apply Qgtb_true in E. lra.
  - lra.
Qed.

Section DetectorPassTotal.
Import AdaptiveLIFDetector.


Lemma lif_step_total I_t k s :
  (k + 1 < length (v (det s)))%nat ->
  length (theta (det s)) = length (v (det s)) ->
  length (spikes s) = length (v (det s)) ->
  length I_t = length (v (det s)) ->
  ~ fs (det s) == 0 ->
  exists s', lif_step I_t k s = Ok s'.
Proof.
  intros Hk Lth Lsp LI Hfs. unfold lif_step. cbv zeta.
  destruct (get_total (v (det s)) k) as [v_t ->]; [lia|].
  destruct (get_total I_t k) as [I ->]; [lia|].
  destruct (get_total (theta (det s)) k) as [th E]; [lia|].
  cbn [bind]. rewrite !set_total by (rewrite ?length_insert; lia).
  cbn [bind]. rewrite !py_div_total by assumption. cbn [bind].
  rewrite E. cbn [bind].
  destruct (_ && _);
    repeat (first [ rewrite set_total by (rewrite ?length_insert; lia)
                  | rewrite py_div_total by assumption ];
            cbn [bind]);
    eauto.
Qed.

Lemma homeostasis_total k s :
  ~ fs (det s) == 0 ->
  py_int (homeo_window_s (det s) * fs (det s)) <> 0%Z ->
  exists s', homeostasis k s = Ok s'.
Proof.
  intros Hfs Hm. unfold homeostasis, homeo_due, py_mod.
  destruct (Z.eqb_spec (py_int (homeo_window_s (det s) * fs (det s))) 0);
    [contradiction|].
  cbn [bind]. destruct (_ && _); [|eauto].
  unfold homeo_update. rewrite py_div_total by assumption. cbn [bind].
  rewrite py_div_total.
  - cbn [bind]. eauto.
  - pose proof (py_max_floor (1 # 1000000000) (homeo_window_s (det s))). lra.
Qed.
End DetectorPassTotal.

(** ** The detector: a whole run *)

Section DetectorRun.
Import AdaptiveLIFDetector.
Variable d : t.
Variable ecg : list Q.

Abbreviation T := (length ecg).

Lemma lif_step_config I_t k s s' :
  lif_step I_t k s = Ok s' -> config (det s') = config (det s).
Proof.
  intros (v_t & I & th & _ & _ & _ & _ & _ & _ & H)%lif_step_Ok.
  cbv zeta in H. destruct (fires _ _ _ _ _).
  - destruct H as (_ & ->). cbn. now destruct (det s).
  - subst. cbn. now destruct (det s).
Qed.

Lemma body_total I_t k s :
  shape d ecg k s -> length I_t = T -> (k + 1 < T)%nat ->
  ~ fs d == 0 -> py_int (homeo_window_s d * fs d) <> 0%Z ->
  exists s', body I_t k s = Ok s'.
Proof.
  intros (Ec & Lv & Lth & Lsp & _) LI Hk Hfs Hm.
  pose proof (config_fields _ _ Ec) as (Efs & _ & _ & _ & _ & _ & _ & _ & Ew).
  destruct (lif_step_total I_t k s) as [s1 H1]; try lia.
  { now rewrite Efs. }
  pose proof (lif_step_config _ _ _ _ H1) as Ec1.
  apply config_fields in Ec1 as (Efs1 & _ & _ & _ & _ & _ & _ & _ & Ew1).
  destruct (homeostasis_total k s1) as [s' H2].
  { now rewrite Efs1, Efs. }
  { now rewrite Ew1, Efs1, Ew, Efs. }
  exists s'. unfold body. rewrite H1. exact H2.
Qed.

Lemma run_upto_total k :
  ecg <> [] -> (k + 1 <= T)%nat ->
  k = 0%nat \/ (~ fs d == 0 /\ py_int (homeo_window_s d * fs d) <> 0%Z) ->
  exists I_t s, run_upto d ecg k = Ok (I_t, s).
Proof.
  intros Hne. induction k as [|k IH]; intros Hk Hcfg.
  - destruct (drive_current_total d ecg Hne) as [I_t HI].
    exists I_t, (loop_init d T). now apply run_upto_0.
  - destruct Hcfg as [|[Hfs Hm]]; [lia|].
    destruct IH as (I_t & s & Hs); [lia | auto |].
    assert (LI : length I_t = T).
    { destruct (run_upto_prefix d ecg I_t k s 0 Hs) as [s0 H0]; [lia|].
      apply run_upto_0 in H0 as [H0 _]. now apply drive_current_length in H0. }
    destruct (body_total I_t k s (run_upto_shape d ecg I_t k s Hs) LI)
      as [s' Hb]; [lia | assumption | assumption |].
    exists I_t, s'. apply run_upto_S. eauto.
Qed.

Lemma run_Ok d' I_t v' theta' spikes' :
  run d ecg = Ok (d', (I_t, v', theta', spikes')) <->
  exists s, run_upto d ecg (T - 1) = Ok (I_t, s) /\
            d' = det s /\ v' = v (det s) /\ theta' = theta (det s) /\
            spikes' = spikes s.
Proof.
  unfold run. split.
  - intros ([I s] & H & [= <- <- <- <- <-])%bind_Ok. eauto 10.
  - intros (s & -> & -> & -> & -> & ->). reflexivity.
Qed.

(** Pass [u] of a run that went further: the states around it, and what
    later passes kept of them. *)
Lemma run_pass_at I_t n sn u :
  run_upto d ecg n = Ok (I_t, sn) -> (u < n)%nat ->
  exists s s',
    run_upto d ecg u = Ok (I_t, s) /\ run_upto d ecg (S u) = Ok (I_t, s') /\
    pass I_t u s s' /\ shape d ecg u s /\ train_inv s /\
    (forall j, (j <= u)%nat ->
       v (det sn) !! j = v (det s) !! j /\
       theta (det sn) !! j = theta (det s) !! j /\
       spikes sn !! j = spikes s !! j) /\
    (v (det sn) !! (u + 1)%nat = v (det s') !! (u + 1)%nat /\
     theta (det sn) !! (u + 1)%nat = theta (det s') !! (u + 1)%nat /\
     spikes sn !! (u + 1)%nat = spikes s' !! (u + 1)%nat) /\
    exists rest, spike_times (det sn) = spike_times (det s') ++ rest.
Proof.
  intros Hn Hu.
  destruct (run_upto_prefix d ecg I_t n sn (S u) Hn) as [s' Hs']; [lia|].
  pose proof Hs' as Hs'2. apply run_upto_S in Hs'2 as (s & Hs & Hb).
  exists s, s'. do 2 (split; [assumption|]).
  split; [now apply body_pass|].
  split; [now apply (run_upto_shape d ecg I_t)|].
  split; [now apply (run_upto_train d ecg I_t u)|].
  split; [|split].
  - intros j Hj. apply (frame_later d ecg I_t n sn u s j); (assumption || lia).
  - apply (frame_later d ecg I_t n sn (S u) s' (u + 1)); (assumption || lia).
  - apply (spike_times_later d ecg I_t n sn (S u) s'); (assumption || lia).
Qed.
End DetectorRun.

Section DetectorHomeostasis.
Import AdaptiveLIFDetector.

Lemma homeo_due_config d d' k :
  config d' = config d -> homeo_due d' k = homeo_due d k.
Proof.
  intros (Efs & _ & _ & _ & _ & _ & _ & _ & Ew)%config_fields.
  unfold homeo_due. now rewrite Efs, Ew.
Qed.

Lemma lif_step_theta_base I_t k s s' :
  lif_step I_t k s = Ok s' -> theta_base (det s') = theta_base (det s).
Proof.
  intros (v_t & I & th & _ & _ & _ & _ & _ & _ & H)%lif_step_Ok.
  cbv zeta in H. destruct (fires _ _ _ _ _).
  - now destruct H as (_ & ->).
  - now subst.
Qed.

(** What one pass does to [theta_base]. *)
Lemma body_theta_base I_t k s s' :
  body I_t k s = Ok s' ->
  exists due, homeo_due (det s) k = Ok due /\
    if due then theta_base_in_range (theta_base (det s'))
    else theta_base (det s') = theta_base (det s).
Proof.
  unfold body. intros (s1 & H1 & H2)%bind_Ok.
  pose proof (lif_step_config _ _ _ _ H1) as Ec.
  pose proof (lif_step_theta_base _ _ _ _ H1) as Etb.
  apply homeostasis_Ok in H2 as (due & Hdue & H2).
  rewrite (homeo_due_config _ _ k Ec) in Hdue.
  exists due. split; [assumption|]. destruct due.
  - destruct H2 as (tb & Htb & ->). cbn.
    now apply homeo_update_bounds in Htb.
  - now subst.
Qed.

Lemma run_upto_theta_base d ecg I_t n s :
  theta_base_in_range (theta_base d) ->
  run_upto d ecg n = Ok (I_t, s) -> theta_base_in_range (theta_base (det s)).
Proof.
  intros H0.
  apply (run_upto_ind d ecg I_t
           (fun _ s => theta_base_in_range (theta_base (det s)))).
  - exact H0.
  - intros k s0 s' _ Hs (due & _ & Hb)%body_theta_base. destruct due.
    + exact Hb.
    + now rewrite Hb.
Qed.
End DetectorHomeostasis.

(** ** Claims about the detector *)

Lemma default_is_default_detector :
  AdaptiveLIFDetector.default = Ok AdaptiveLIFDetector.default_detector.
Proof. reflexivity. Qed.




(** C6. In every run, the homeostatic update of pass [k] leaves
    [theta_base] inside [[0.001, 1.0]]; a pass without update leaves
    [theta_base] as it was; so a [theta_base] that starts inside the range
    is inside it after every pass. *)
Theorem C6_theta_base_clamped
    (d : AdaptiveLIFDetector.t) (ecg I_t : list Q) (k : nat)
    (s s' : AdaptiveLIFDetector.loop_state) :
  AdaptiveLIFDetector.run_upto d ecg k = Ok (I_t, s) ->
  AdaptiveLIFDetector.run_upto d ecg (S k) = Ok (I_t, s') ->
  let tb := AdaptiveLIFDetector.theta_base (AdaptiveLIFDetector.det s) in
  let tb' := AdaptiveLIFDetector.theta_base (AdaptiveLIFDetector.det s') in
  (AdaptiveLIFDetector.homeo_due d k = Ok true ->
     AdaptiveLIFDetector.THETA_BASE_MIN <= tb' /\
     tb' <= AdaptiveLIFDetector.THETA_BASE_MAX) /\
  (AdaptiveLIFDetector.homeo_due d k = Ok false -> tb' = tb) /\
  (AdaptiveLIFDetector.THETA_BASE_MIN <= AdaptiveLIFDetector.theta_base d /\
   AdaptiveLIFDetector.theta_base d <= AdaptiveLIFDetector.THETA_BASE_MAX ->
   AdaptiveLIFDetector.THETA_BASE_MIN <= tb' /\
   tb' <= AdaptiveLIFDetector.THETA_BASE_MAX).
Proof.
  intros Hs Hs' tb tb'.
  pose proof (run_upto_shape d ecg I_t k s Hs) as (Ec & _).
  pose proof Hs' as (s0 & Hs0 & Hb)%run_upto_S.
  rewrite Hs in Hs0. injection Hs0 as <-.
  apply body_theta_base in Hb as (due & Hdue & Hb).
  rewrite (homeo_due_config _ _ k Ec) in Hdue.
  split; [|split].
  - intros E. rewrite E in Hdue. injection Hdue as <-. exact Hb.
  - intros E. rewrite E in Hdue. injection Hdue as <-. exact Hb.
  - intros H0. exact (run_upto_theta_base d ecg I_t (S k) s' H0 Hs').
Qed.

(** The short-window detector on two pulses: the update of pass 2 fires. *)
Lemma C6_theta_base_clamped_witness :
  exists I_t s',
    AdaptiveLIFDetector.run_upto AdaptiveLIFDetector.short_detector
      [0; 1; 0; 0; 0; 1; 0; 0] 3 = Ok (I_t, s') /\
    AdaptiveLIFDetector.homeo_due AdaptiveLIFDetector.short_detector 2 = Ok true /\
    AdaptiveLIFDetector.THETA_BASE_MIN
      <= AdaptiveLIFDetector.theta_base (AdaptiveLIFDetector.det s') /\
    AdaptiveLIFDetector.theta_base (AdaptiveLIFDetector.det s')
      <= AdaptiveLIFDetector.THETA_BASE_MAX.
Proof.
  destruct (AdaptiveLIFDetector.run_upto AdaptiveLIFDetector.short_detector
              [0; 1; 0; 0; 0; 1; 0; 0] 3) as [[I_t s']|e] eqn:E3;
    [|exfalso; vm_compute in E3; discriminate].
  exists I_t, s'. split; [reflexivity|]. split; [reflexivity|].
  pose proof E3 as (s & E2 & _)%run_upto_S.
  apply (proj1 (C6_theta_base_clamped AdaptiveLIFDetector.short_detector
                  [0; 1; 0; 0; 0; 1; 0; 0] I_t 2 s s' E2 E3)).
  reflexivity.
Defined.


(** The short-window detector on two pulses: it spikes at samples 2 and
    6, 16 ms apart, with a refractory period of 8 ms. *)
Example short_run_spikes :
  match AdaptiveLIFDetector.run AdaptiveLIFDetector.short_detector
          [0; 1; 0; 0; 0; 1; 0; 0] with
  | Ok (d', (_, _, _, spikes)) =>
      spikes = [0; 0; 1; 0; 0; 0; 1; 0]%Z /\
      map Qred (AdaptiveLIFDetector.spike_times d') = [1 # 125; 3 # 125]
  | Raise _ => False
  end.
Proof. vm_compute. split; reflexivity. Qed.


(** C8. Per-step semantics.  For every [t] with [t + 1 < N], with [v],
    [theta], [spikes] the returned arrays and [s] the loop state at the
    start of pass [t]: either no spike is emitted at [t + 1] (the sample
    is refractory or the integrated potential is below [theta[t]]) and
    [v[t+1] = v[t] + dt * (-(v[t] - v_rest) / tau_m + I[t])],
    [theta[t+1] = theta[t] + dt * (-(theta[t] - theta_base) / tau_theta)];
    or a spike is emitted (not refractory, potential at least [theta[t]]),
    [v[t+1] = v_reset], [theta[t+1] = theta[t] + theta_inc] and
    [(t + 1) / fs] is appended to [spike_times]. *)
Theorem C8_per_step_semantics
    (d d' : AdaptiveLIFDetector.t) (ecg I_t v theta : list Q) (spikes : list Z)
    (t : nat) :
  AdaptiveLIFDetector.run d ecg = Ok (d', (I_t, v, theta, spikes)) ->
  (t + 1 < length ecg)%nat ->
  exists s v_t I theta_t,
    AdaptiveLIFDetector.run_upto d ecg t = Ok (I_t, s) /\
    v !! t = Some v_t /\ I_t !! t = Some I /\ theta !! t = Some theta_t /\
    let potential :=
      v_t + AdaptiveLIFDetector.dt d
            * (- (v_t - AdaptiveLIFDetector.v_rest d) / AdaptiveLIFDetector.tau_m d
               + I) in
    let refractory :=
      of_nat t / AdaptiveLIFDetector.fs d - AdaptiveLIFDetector.last_spike_time s
      < AdaptiveLIFDetector.refractory_s d in
    let theta_base := AdaptiveLIFDetector.theta_base (AdaptiveLIFDetector.det s) in
    (spikes !! (t + 1)%nat = Some 0%Z /\
     (refractory \/ potential < theta_t) /\
     v !! (t + 1)%nat = Some potential /\
     theta !! (t + 1)%nat
       = Some (theta_t + AdaptiveLIFDetector.dt d
                         * (- (theta_t - theta_base)
                            / AdaptiveLIFDetector.tau_theta d)))
    \/
    (spikes !! (t + 1)%nat = Some 1%Z /\
     ~ refractory /\ theta_t <= potential /\
     v !! (t + 1)%nat = Some (AdaptiveLIFDetector.v_reset d) /\
     theta !! (t + 1)%nat = Some (theta_t + AdaptiveLIFDetector.theta_inc d) /\
     exists rest,
       AdaptiveLIFDetector.spike_times d'
       = AdaptiveLIFDetector.spike_times (AdaptiveLIFDetector.det s)
         ++ [of_nat (t + 1) / AdaptiveLIFDetector.fs d] ++ rest).
Proof.
  intros (sn & Hn & -> & -> & -> & ->)%run_Ok Ht.
  destruct (run_pass_at d ecg I_t _ sn t Hn)
    as (s & s' & Hs & Hs' & Hpass & Hshape & _ & Hfr & (Fv & Fth & Fsp)
        & rest & Hrest); [lia|].
  destruct Hshape as (Ec & _ & _ & _ & Hz).
  apply config_fields in Ec
    as (Efs & Edt & Etm & Ett & Einc & Evr & Evrest & Er & _).
  destruct Hpass as (_ & _ & _ & _ & _ & v_t & I & th & Hv & HI & Hth & _ & Hc).
  cbv zeta in Hc.
  exists s, v_t, I, th. split; [exact Hs|].
  destruct (Hfr t) as (-> & -> & _); [lia|].
  do 3 (split; [assumption|]). cbv zeta.
  rewrite Fv, Fth, Fsp.
  unfold integrated, relaxed in Hc.
  rewrite Efs, Edt, Etm, Ett, Einc, Evr, Evrest in Hc.
  destruct Hc as [(F & H1 & Hv1 & Hth1 & Est & _) | (F & Esp & Hv1 & Hth1 & _)].
  - right. apply fires_true in F as [F1 F2]. rewrite Er in F1.
    split; [assumption|]. split; [now apply Qle_not_lt|].
    do 3 (split; [assumption|]).
    exists rest. rewrite Hrest, Est, <- app_assoc. reflexivity.
  - left. split.
    { rewrite Esp. apply Hz; lia. }
    split; [|split; assumption].
    unfold fires in F. rewrite Er in F.
    apply andb_false_iff in F as [F | F].
    + left. apply negb_false_iff in F. now apply Qltb_true.
    + right. now apply Qgeb_false.
Qed.

(** The default detector on one pulse: pass 1 emits the spike of sample 2. *)
Lemma C8_per_step_semantics_witness :
  exists d' I_t v theta spikes,
    AdaptiveLIFDetector.run AdaptiveLIFDetector.default_detector [0; 1; 0; 0]
    = Ok (d', (I_t, v, theta, spikes)) /\
    exists s v_t I theta_t,
      AdaptiveLIFDetector.run_upto AdaptiveLIFDetector.default_detector
        [0; 1; 0; 0] 1 = Ok (I_t, s) /\
      v !! 1%nat = Some v_t /\ I_t !! 1%nat = Some I /\
      theta !! 1%nat = Some theta_t.
Proof.
  destruct (AdaptiveLIFDetector.run AdaptiveLIFDetector.default_detector
              [0; 1; 0; 0])
    as [[d' [[[I_t v] theta] spikes]]|e] eqn:E;
    [|exfalso; vm_compute in E; discriminate].
  exists d', I_t, v, theta, spikes. split; [reflexivity|].
  destruct (C8_per_step_semantics AdaptiveLIFDetector.default_detector d'
              [0; 1; 0; 0] I_t v theta spikes 1 E)
    as (s & v_t & I & theta_t & H1 & H2 & H3 & H4 & _); [cbn; lia|].
  exists s, v_t, I, theta_t. auto.
Defined.




(** ** Claims about construction *)

(** C4, as stated, fails: both constructors accept a negative sample
    rate, a negative lower rate and negative time constants. *)
Lemma C4_counterexample :
  (exists c,
     PacemakerController.init (- 250) "VVI" (- 50) 40 200 (5 # 2) (1 # 2) (11 # 10)
     = Ok c /\
     PacemakerController.escape_interval_s c < 0) /\
  (exists d,
     AdaptiveLIFDetector.init (- 250) None (- (3 # 100)) (- (7 # 10)) (15 # 100)
       (25 # 100) 0 0 10 (18 # 100) 150 (8 # 10000) (- 1) 6
     = Ok d /\
     AdaptiveLIFDetector.dt d < 0 /\ AdaptiveLIFDetector.tau_m d < 0).
Proof.
  split; eexists; (split; [reflexivity|]); cbn; repeat split.
Qed.

(** C4, amended. The constructors validate nothing.  The controller's
    raises exactly when [lower_rate_bpm] is zero, the detector's exactly
    when [dt] is omitted and [fs] is zero, both with a
    [ZeroDivisionError]; every other configuration is accepted. *)
Theorem C4_constructors_raise_on_zero_division_only :
  (forall fs mode lower_rate_bpm blanking_ms refractory_ms pulse_amplitude_mV
          pulse_width_ms capture_threshold_mV,
     let r := PacemakerController.init fs mode lower_rate_bpm blanking_ms
                refractory_ms pulse_amplitude_mV pulse_width_ms
                capture_threshold_mV in
     (r = Raise ZeroDivisionError <-> lower_rate_bpm == 0) /\
     ((exists c, r = Ok c) <-> ~ lower_rate_bpm == 0)) /\
  (forall fs dt tau_m tau_theta theta_base theta_inc v_reset v_rest gain
          dead_zone refractory_ms homeo_rate target_spikes_per_sec
          homeo_window_s,
     let r := AdaptiveLIFDetector.init fs dt tau_m tau_theta theta_base
                theta_inc v_reset v_rest gain dead_zone refractory_ms
                homeo_rate target_spikes_per_sec homeo_window_s in
     (r = Raise ZeroDivisionError <-> dt = None /\ fs == 0) /\
     ((exists d, r = Ok d) <-> ~ (dt = None /\ fs == 0))).
Proof.
  assert (Hno : forall (A : Type) (e : error), ~ exists a : A, Raise e = Ok a)
    by (intros A e [a [=]]).
  split.
  - intros fs mode lrb b rf pa pw ct. cbv zeta.
    unfold PacemakerController.init, py_div.
    destruct (Qeq_bool lrb 0) eqn:E; cbn;
      [apply Qeq_bool_iff in E | apply Qeq_bool_neq in E];
      split; split; unfold not; intros;
      first [ discriminate | reflexivity | tauto
            | exfalso; eapply Hno; eassumption | eauto ].
  - intros fs dt. intros. subst r. unfold AdaptiveLIFDetector.init, py_div.
    destruct dt as [x|]; cbn;
      [|destruct (Qeq_bool fs 0) eqn:E; cbn;
        [apply Qeq_bool_iff in E | apply Qeq_bool_neq in E]];
      split; split; unfold not; intros;
      first [ discriminate | reflexivity | tauto
            | split; [reflexivity | assumption]
            | exfalso; eapply Hno; eassumption
            | match goal with
              | H : Some _ = None /\ _ |- _ => now destruct H
              | H : _ /\ _ -> False |- _ =>
                  exfalso; apply H; split; [reflexivity | assumption]
              end
            | eauto ].
Qed.

(** * Further properties of the code *)

(** ** The controller: histories, exclusion, rate limit, reset *)

Section ControllerMore.
Import PacemakerController.

(** What one [step] appends to the two histories. *)
Lemma step_histories c t_s spike draw :
  let c' := fst (step c t_s spike draw) in
  let o := snd (step c t_s spike draw) in
  pacing_history c'
  = pacing_history c ++ (if paced o then [(t_s, draw)] else []) /\
  sensed_history c'
  = sensed_history c ++ (if accepted o then [t_s] else []).
Proof.
  unfold step, sense, pace_phase.
  destruct (spike && _ && _); cbn [last_event_time escape_interval_s];
    match goal with
    | |- context [Qgeb ?a ?b] => destruct (Qgeb a b)
    end; cbn; rewrite ?app_nil_r; auto.
Qed.

(** [step] keeps everything [reset] keeps. *)
Lemma step_reset c t_s spike draw :
  reset (fst (step c t_s spike draw)) = reset c.
Proof.
  unfold step, sense, pace_phase.
  destruct (spike && _ && _); cbn [last_event_time escape_interval_s];
    match goal with
    | |- context [Qgeb ?a ?b] => destruct (Qgeb a b)
    end; reflexivity.
Qed.

Lemma drive_reset fs spikes draws n c :
  reset (drive fs spikes draws n c) = reset c.
Proof.
  induction n as [|n IH]; [reflexivity|].
  now rewrite drive_S, step_reset.
Qed.

(** After an event at step [i], [last_event_time] never falls below its
    time. *)
Lemma last_event_after fs spikes draws c0 i j :
  0 < fs ->
  event (output fs spikes draws c0 i) = true -> (i < j)%nat ->
  sample_time fs i <= last_event_time (drive fs spikes draws j c0).
Proof.
  intros Hfs Hi Hlt. induction j as [|j IH]; [lia|].
  rewrite drive_S.
  destruct (step_timers (drive fs spikes draws j c0) (sample_time fs j)
              (spikes j) (draws j)) as (He1 & He0 & _). cbv zeta in *.
  destruct (event (step (drive fs spikes draws j c0) (sample_time fs j)
                     (spikes j) (draws j)).2) eqn:Hj.
  - rewrite He1 by reflexivity. apply sample_time_mono; [assumption | lia].
  - destruct He0 as [-> _]; [reflexivity|].
    destruct (decide (i = j)) as [->|Hne].
    + unfold output in Hi. congruence.
    + apply IH. lia.
Qed.
End ControllerMore.

(** X1. Along a run from a reset controller, [sensed_history] is the list
    of the sample times at which a sense was accepted, and
    [pacing_history] the list of the sample times at which a pace was
    delivered, each with its capture draw, both in step order. *)
Theorem X1_histories_record_events
    (fs : Q) (spikes draws : nat -> bool) (c0 : PacemakerController.t) (n : nat) :
  let c := PacemakerController.reset c0 in
  let out := PacemakerController.output fs spikes draws c in
  PacemakerController.sensed_history (PacemakerController.drive fs spikes draws n c)
  = map (PacemakerController.sample_time fs)
        (filter (fun i => PacemakerController.accepted (out i) = true) (seq 0 n)) /\
  PacemakerController.pacing_history (PacemakerController.drive fs spikes draws n c)
  = map (fun i => (PacemakerController.sample_time fs i, draws i))
        (filter (fun i => PacemakerController.paced (out i) = true) (seq 0 n)).
Proof.
  cbv zeta. induction n as [|n [IHs IHp]]; [split; reflexivity|].
  rewrite seq_S, !filter_app, !map_app, drive_S. cbn [Nat.add].
  destruct (step_histories
              (PacemakerController.drive fs spikes draws n
                 (PacemakerController.reset c0))
              (PacemakerController.sample_time fs n) (spikes n) (draws n))
    as [Hp Hs].
  cbv zeta in Hp, Hs. rewrite Hp, Hs, IHs, IHp.
  unfold PacemakerController.output at 2 4.
  split; f_equal.
  - destruct (PacemakerController.accepted _) eqn:E.
    + now rewrite filter_cons_True, filter_nil by (unfold PacemakerController.output; exact E).
    + rewrite filter_cons_False, filter_nil; [reflexivity|].
      unfold PacemakerController.output. rewrite E. discriminate.
  - destruct (PacemakerController.paced _) eqn:E.
    + now rewrite filter_cons_True, filter_nil by (unfold PacemakerController.output; exact E).
    + rewrite filter_cons_False, filter_nil; [reflexivity|].
      unfold PacemakerController.output. rewrite E. discriminate.
Qed.

(** X2. With a positive escape interval, one [step] never both accepts a
    sense and paces; and [captured] is never true without [pace]. *)
Theorem X2_sense_and_pace_exclude
    (c : PacemakerController.t) (t_s : Q) (detector_spike draw : bool) :
  0 < PacemakerController.escape_interval_s c ->
  let o := snd (PacemakerController.step c t_s detector_spike draw) in
  (PacemakerController.accepted o = true -> PacemakerController.paced o = false) /\
  (snd (fst o) = true -> PacemakerController.paced o = true).
Proof.
  intros Hesc. cbv zeta.
  unfold PacemakerController.step, PacemakerController.sense,
    PacemakerController.pace_phase.
  destruct (detector_spike && _ && _);
    cbn [PacemakerController.last_event_time
         PacemakerController.escape_interval_s];
    match goal with
    | |- context [Qgeb ?a ?b] => destruct (Qgeb a b) eqn:E
    end; cbn; split; intros; try congruence.
  apply Qgeb_true in E. lra.
Qed.

Lemma X2_sense_and_pace_exclude_witness :
  let o := snd (PacemakerController.step
                  PacemakerController.default_controller 0 true true) in
  (PacemakerController.accepted o = true -> PacemakerController.paced o = false) /\
  (snd (fst o) = true -> PacemakerController.paced o = true).
Proof.
  apply (X2_sense_and_pace_exclude PacemakerController.default_controller
           0 true true).
  reflexivity.
Defined.

(** X3. Demand pacing: on the simulator's sample times, a pace is
    delivered no sooner than [escape_interval_s] after any earlier event
    (accepted sense or pace) of the run. *)
Theorem X3_pace_waits_escape_interval
    (fs : Q) (spikes draws : nat -> bool) (c0 : PacemakerController.t) (i j : nat) :
  0 < fs -> (i < j)%nat ->
  PacemakerController.event (PacemakerController.output fs spikes draws c0 i) = true ->
  PacemakerController.paced (PacemakerController.output fs spikes draws c0 j) = true ->
  PacemakerController.escape_interval_s c0
  <= PacemakerController.sample_time fs j - PacemakerController.sample_time fs i.
Proof.
  intros Hfs Hlt Hi Hj.
  pose proof (last_event_after fs spikes draws c0 i j Hfs Hi Hlt) as Hlast.
  pose proof (sample_time_mono fs Hfs i j) as Hmono.
  unfold PacemakerController.output in Hj.
  destruct (step_flags (PacemakerController.drive fs spikes draws j c0)
              (PacemakerController.sample_time fs j) (spikes j) (draws j))
    as (Ha & Hp & Hsame).
  cbv zeta in Ha, Hp, Hsame. rewrite Hp in Hj. apply Qgeb_true in Hj.
  destruct (drive_config fs spikes draws j c0) as (Ee & _).
  cbv zeta in Ee. rewrite Ee in Hj.
  destruct (PacemakerController.accepted _) eqn:Hacc.
  - destruct (step_timers (PacemakerController.drive fs spikes draws j c0)
                (PacemakerController.sample_time fs j) (spikes j) (draws j))
      as (He & _). cbv zeta in He.
    assert (Hlj : PacemakerController.last_event_time
                    (fst (PacemakerController.sense
                            (PacemakerController.drive fs spikes draws j c0)
                            (PacemakerController.sample_time fs j) (spikes j)))
                  = PacemakerController.sample_time fs j).
    { unfold PacemakerController.sense.
      symmetry in Ha. unfold PacemakerController.sense in Ha.
      destruct (spikes j && _ && _); [reflexivity | discriminate]. }
    rewrite Hlj in Hj. assert (Hm : (i <= j)%nat) by lia.
    specialize (Hmono Hm). lra.
  - rewrite Hsame in Hj by reflexivity. lra.
Qed.

(** The default controller on a silent 250 Hz run paces at steps 0 and 300. *)
Lemma X3_pace_waits_escape_interval_witness :
  PacemakerController.escape_interval_s PacemakerController.default_controller
  <= PacemakerController.sample_time 250 300 - PacemakerController.sample_time 250 0.
Proof.
  apply (X3_pace_waits_escape_interval 250 (fun _ => false) (fun _ => true)
           PacemakerController.default_controller 0 300).
  - reflexivity.
  - lia.
  - vm_compute. reflexivity.
  - vm_compute. reflexivity.
Defined.

(** X4. [reset] after any number of steps gives back the controller the
    constructor built: the steps change nothing but the three timers and
    the two histories. *)
Theorem X4_reset_restores_constructed
    (fs0 : Q) (mode : string)
    (lower_rate_bpm blanking_ms refractory_ms pulse_amplitude_mV pulse_width_ms
     capture_threshold_mV : Q)
    (c : PacemakerController.t)
    (fs : Q) (spikes draws : nat -> bool) (n : nat) :
  PacemakerController.init fs0 mode lower_rate_bpm blanking_ms refractory_ms
    pulse_amplitude_mV pulse_width_ms capture_threshold_mV = Ok c ->
  PacemakerController.reset (PacemakerController.drive fs spikes draws n c) = c.
Proof.
  unfold PacemakerController.init. intros (e & _ & [= <-])%bind_Ok.
  rewrite drive_reset. reflexivity.
Qed.

Lemma X4_reset_restores_constructed_witness :
  PacemakerController.reset
    (PacemakerController.drive 250 (fun i => Nat.even i) (fun _ => true) 400
       PacemakerController.default_controller)
  = PacemakerController.default_controller.
Proof.
  apply (X4_reset_restores_constructed 250 "VVI" 50 40 200 (5 # 2) (1 # 2)
           (11 # 10)).
  reflexivity.
Defined.

(** X5. A freshly reset controller called at a time [t_s >= 0] with an
    escape interval of at most [1e9] seconds: without a detector spike it
    paces at once and opens its blanking window; with a detector spike
    (and a positive escape interval) it accepts the sense and does not
    pace. *)
Theorem X5_first_step_of_fresh_controller
    (c0 : PacemakerController.t) (t_s : Q) (draw : bool) :
  0 <= t_s ->
  PacemakerController.escape_interval_s c0 <= 1000000000 ->
  let c := PacemakerController.reset c0 in
  (PacemakerController.step c t_s false draw).2 = (true, draw, false) /\
  PacemakerController.blank_until (PacemakerController.step c t_s false draw).1
  = t_s + PacemakerController.blanking_s c0 /\
  (0 < PacemakerController.escape_interval_s c0 ->
   (PacemakerController.step c t_s true draw).2 = (false, false, true) /\
   PacemakerController.refract_until (PacemakerController.step c t_s true draw).1
   = t_s + PacemakerController.refractory_s c0).
Proof.
  intros Ht Hesc. cbv zeta.
  unfold PacemakerController.step, PacemakerController.sense,
    PacemakerController.pace_phase. cbn.
  assert (E1 : Qgeb (t_s - NEG_1E9) (PacemakerController.escape_interval_s c0)
               = true).
  { apply Qgeb_true. unfold NEG_1E9. lra. }
  assert (E2 : Qgeb t_s NEG_1E9 = true).
  { apply Qgeb_true. unfold NEG_1E9. lra. }
  rewrite E1, E2. cbn. split; [reflexivity|]. split; [reflexivity|].
  intros Hpos.
  assert (E3 : Qgeb (t_s - t_s) (PacemakerController.escape_interval_s c0)
               = false).
  { apply Qgeb_false. lra. }
  rewrite E3. cbn. auto.
Qed.

Lemma X5_first_step_of_fresh_controller_witness :
  (PacemakerController.step
     (PacemakerController.reset PacemakerController.default_controller)
     0 false true).2 = (true, true, false).
Proof.
  apply (X5_first_step_of_fresh_controller
           PacemakerController.default_controller 0 true).
  - discriminate.
  - vm_compute. discriminate.
Defined.

(** ** The detector: outputs of a run *)

Section DetectorMore.
Import AdaptiveLIFDetector.

Lemma lookup_map {A B : Type} (f : A -> B) (l : list A) (i : nat) :
  map f l !! i = option_map f (l !! i).
Proof.
  revert i. induction l as [|x l IH]; intros [|i]; cbn; auto.
Qed.

(** Every entry of [spikes] is 0 or 1, during the whole loop. *)
Lemma run_upto_binary d ecg I_t n s :
  run_upto d ecg n = Ok (I_t, s) ->
  forall i z, spikes s !! i = Some z -> z = 0%Z \/ z = 1%Z.
Proof.
  apply (run_upto_ind d ecg I_t
           (fun _ s => forall i z, spikes s !! i = Some z -> z = 0%Z \/ z = 1%Z)).
  - intros i z Hz. cbn in Hz. apply lookup_replicate in Hz as [-> _]. now left.
  - intros k s0 s' _ IH Hb i z Hz.
    apply body_pass in Hb
      as (_ & _ & _ & _ & Hfr & v_t & I & th & _ & _ & _ & _ & Hc).
    cbv zeta in Hc.
    destruct (decide (i = (k + 1)%nat)) as [->|Hne].
    + destruct Hc as [(_ & H1 & _) | (_ & Esp & _)].
      * rewrite H1 in Hz. injection Hz as <-. now right.
      * rewrite Esp in Hz. eauto.
    + destruct (Hfr i Hne) as (_ & _ & E). rewrite E in Hz. eauto.
Qed.

(** The drive current of any signal lies between 0 and
    [gain * max(10 - dead_zone, 0)], for a gain that is not negative. *)
Lemma drive_current_bounds d ecg I_t :
  0 <= gain d -> drive_current d ecg = Ok I_t ->
  Forall (fun x => 0 <= x /\ x <= gain d * Qmax (10 - dead_zone d) 0) I_t.
Proof.
  intros Hg. unfold drive_current. intros (mn & _ & H)%bind_Ok.
  apply bind_Ok in H as (mx & _ & [= <-]).
  do 3 apply List.Forall_map. apply Forall_forall. intros x _. cbv beta.
  set (y := (x - _) / _).
  destruct (np_clip_bounds y (- 5) 10) as [_ Hhi]; [discriminate|].
  unfold np_clip_lo.
  assert (H0 : 0 <= Qmax (np_clip y (- 5) 10 - dead_zone d) 0)
    by apply Q.le_max_r.
  assert (H1 : Qmax (np_clip y (- 5) 10 - dead_zone d) 0
               <= Qmax (10 - dead_zone d) 0).
  { apply Q.max_le_compat_r. lra. }
  split.
  - now apply Qmult_le_0_compat.
  - rewrite !(Qmult_comm (gain d)). now apply Qmult_le_compat_r.
Qed.

(** A run reads nothing of the detector but its configuration and
    [theta_base]. *)
Lemma run_upto_reads_config d1 d2 ecg k :
  config d1 = config d2 -> theta_base d1 = theta_base d2 ->
  run_upto d1 ecg k = run_upto d2 ecg k.
Proof.
  destruct d1, d2. cbv [config with_theta_base with_spike_times with_arrays].
  cbn. intros [=] ->. subst. reflexivity.
Qed.
End DetectorMore.

(** X6. The four sequences that [run] returns have the length of the
    signal, [v] and [theta] are the detector's own arrays, and the run
    leaves the detector's configuration as it was. *)
Theorem X6_run_outputs_aligned
    (d d' : AdaptiveLIFDetector.t) (ecg I_t v theta : list Q) (spikes : list Z) :
  AdaptiveLIFDetector.run d ecg = Ok (d', (I_t, v, theta, spikes)) ->
  length I_t = length ecg /\ length v = length ecg /\
  length theta = length ecg /\ length spikes = length ecg /\
  AdaptiveLIFDetector.v d' = v /\ AdaptiveLIFDetector.theta d' = theta /\
  config d' = config d.
Proof.
  intros (s & H & -> & -> & -> & ->)%run_Ok.
  pose proof (run_upto_shape d ecg I_t _ s H) as (Ec & Lv & Lth & Lsp & _).
  destruct (run_upto_prefix d ecg I_t _ s 0 H) as [s0 H0]; [lia|].
  apply run_upto_0 in H0 as [H0 _]. apply drive_current_length in H0.
  repeat split; assumption.
Qed.

Lemma X6_run_outputs_aligned_witness :
  exists d' I_t v theta spikes,
    AdaptiveLIFDetector.run AdaptiveLIFDetector.default_detector [0; 1; 0; 0]
    = Ok (d', (I_t, v, theta, spikes)) /\
    length I_t = 4%nat /\ length v = 4%nat /\ length theta = 4%nat /\
    length spikes = 4%nat.
Proof.
  destruct (AdaptiveLIFDetector.run AdaptiveLIFDetector.default_detector
              [0; 1; 0; 0])
    as [[d' [[[I_t v] theta] spikes]]|e] eqn:E;
    [|exfalso; vm_compute in E; discriminate].
  exists d', I_t, v, theta, spikes. split; [reflexivity|].
  destruct (X6_run_outputs_aligned AdaptiveLIFDetector.default_detector d'
              [0; 1; 0; 0] I_t v theta spikes E) as (H1 & H2 & H3 & H4 & _).
  auto.
Defined.

(** X7. In the returned arrays every entry of [spikes] is 0 or 1, sample
    0 never carries a spike, [v[0]] is 0 and [theta[0]] is the
    [theta_base] the run started with; [spike_times] has one entry per
    spike. *)
Theorem X7_spike_train_well_formed
    (d d' : AdaptiveLIFDetector.t) (ecg I_t v theta : list Q) (spikes : list Z) :
  AdaptiveLIFDetector.run d ecg = Ok (d', (I_t, v, theta, spikes)) ->
  Forall (fun z => z = 0%Z \/ z = 1%Z) spikes /\
  spikes !! 0%nat = Some 0%Z /\
  v !! 0%nat = Some 0 /\
  theta !! 0%nat = Some (AdaptiveLIFDetector.theta_base d) /\
  length (AdaptiveLIFDetector.spike_times d') = length (spike_indices spikes).
Proof.
  intros (s & H & -> & -> & -> & ->)%run_Ok.
  pose proof (run_upto_shape d ecg I_t _ s H) as (_ & _ & _ & _ & Hz).
  destruct (run_upto_prefix d ecg I_t _ s 0 H) as [s0 H0]; [lia|].
  destruct (frame_later d ecg I_t _ s 0 s0 0 H H0) as (Ev & Eth & _); [lia..|].
  pose proof H0 as [HI ->]%run_upto_0.
  assert (HT : (0 < length ecg)%nat).
  { apply drive_current_length in HI. destruct ecg; [discriminate | cbn; lia]. }
  split; [|split; [|split; [|split]]].
  - apply Forall_lookup. intros i z. apply (run_upto_binary d ecg I_t _ s H).
  - apply Hz; auto.
  - rewrite Ev. destruct d. cbn. now apply lookup_replicate_2.
  - rewrite Eth. destruct d. cbn. now apply lookup_replicate_2.
  - destruct (run_upto_train d ecg I_t _ s H) as (-> & _).
    now rewrite length_map.
Qed.

Lemma X7_spike_train_well_formed_witness :
  exists d' I_t v theta spikes,
    AdaptiveLIFDetector.run AdaptiveLIFDetector.short_detector
      [0; 1; 0; 0; 0; 1; 0; 0] = Ok (d', (I_t, v, theta, spikes)) /\
    Forall (fun z => z = 0%Z \/ z = 1%Z) spikes /\
    spikes !! 0%nat = Some 0%Z.
Proof.
  destruct (AdaptiveLIFDetector.run AdaptiveLIFDetector.short_detector
              [0; 1; 0; 0; 0; 1; 0; 0])
    as [[d' [[[I_t v] theta] spikes]]|e] eqn:E;
    [|exfalso; vm_compute in E; discriminate].
  exists d', I_t, v, theta, spikes. split; [reflexivity|].
  destruct (X7_spike_train_well_formed AdaptiveLIFDetector.short_detector d'
              [0; 1; 0; 0; 0; 1; 0; 0] I_t v theta spikes E) as (H1 & H2 & _).
  auto.
Defined.

(** X8. For a gain that is not negative, the drive current returned by
    [run] is bounded: [0 <= I[t] <= gain * max(10 - dead_zone, 0)] for
    every sample, whatever the signal. *)
Theorem X8_drive_current_bounded
    (d d' : AdaptiveLIFDetector.t) (ecg I_t v theta : list Q) (spikes : list Z) :
  0 <= AdaptiveLIFDetector.gain d ->
  AdaptiveLIFDetector.run d ecg = Ok (d', (I_t, v, theta, spikes)) ->
  Forall (fun x =>
            0 <= x /\
            x <= AdaptiveLIFDetector.gain d
                 * Qmax (10 - AdaptiveLIFDetector.dead_zone d) 0) I_t.
Proof.
  intros Hg (s & H & _)%run_Ok.
  destruct (run_upto_prefix d ecg I_t _ s 0 H) as [s0 H0]; [lia|].
  apply run_upto_0 in H0 as [H0 _].
  exact (drive_current_bounds d ecg I_t Hg H0).
Qed.

Lemma X8_drive_current_bounded_witness :
  exists d' I_t v theta spikes,
    AdaptiveLIFDetector.run AdaptiveLIFDetector.default_detector [0; 1; 0; 0]
    = Ok (d', (I_t, v, theta, spikes)) /\
    Forall (fun x => 0 <= x /\ x <= 10 * Qmax (10 - (18 # 100)) 0) I_t.
Proof.
  destruct (AdaptiveLIFDetector.run AdaptiveLIFDetector.default_detector
              [0; 1; 0; 0])
    as [[d' [[[I_t v] theta] spikes]]|e] eqn:E;
    [|exfalso; vm_compute in E; discriminate].
  exists d', I_t, v, theta, spikes. split; [reflexivity|].
  apply (X8_drive_current_bounded AdaptiveLIFDetector.default_detector d'
           [0; 1; 0; 0] I_t v theta spikes); [discriminate | exact E].
Defined.

(** X9. A run reads nothing of the detector but its configuration and
    [theta_base]: the arrays and the spike list left by an earlier run are
    overwritten.  So re-running the detector left by a run is running the
    original detector with the [theta_base] the run ended with. *)
Theorem X9_run_reads_config_and_theta_base
    (d1 d2 : AdaptiveLIFDetector.t) (ecg : list Q) :
  config d1 = config d2 ->
  AdaptiveLIFDetector.theta_base d1 = AdaptiveLIFDetector.theta_base d2 ->
  AdaptiveLIFDetector.run d1 ecg = AdaptiveLIFDetector.run d2 ecg.
Proof.
  intros Hc Htb. unfold AdaptiveLIFDetector.run.
  now rewrite (run_upto_reads_config d1 d2 ecg _ Hc Htb).
Qed.

Lemma X9_run_reads_config_and_theta_base_witness :
  AdaptiveLIFDetector.run
    (AdaptiveLIFDetector.with_spike_times
       (AdaptiveLIFDetector.with_arrays AdaptiveLIFDetector.default_detector
          [1; 2] [3])
       [5])
    [0; 1; 0; 0]
  = AdaptiveLIFDetector.run AdaptiveLIFDetector.default_detector [0; 1; 0; 0].
Proof.
  apply X9_run_reads_config_and_theta_base; reflexivity.
Defined.

(** ** The detector: threshold floor and dead signals *)

Section DetectorFloor.
Import AdaptiveLIFDetector.

(** Relaxing towards [theta_base] with [0 <= dt <= tau_theta] stays above
    any bound below both the threshold and [theta_base]. *)
Lemma relaxed_floor d m theta_t :
  0 <= dt d -> dt d <= tau_theta d -> 0 < tau_theta d ->
  m <= theta_t -> m <= theta_base d -> m <= relaxed d theta_t.
Proof.
  intros Hdt Hle Htau Hth Htb. unfold relaxed.
  set (r := dt d / tau_theta d).
  assert (Hr0 : 0 <= r).
  { unfold r. apply Qle_shift_div_l; [assumption | lra]. }
  assert (Hr1 : r <= 1).
  { unfold r. apply Qle_shift_div_r; [assumption | lra]. }
  assert (E : theta_t + dt d * (- (theta_t - theta_base d) / tau_theta d)
              == m + ((1 - r) * (theta_t - m) + r * (theta_base d - m))).
  { unfold r. field. intros H0. rewrite H0 in Htau. now apply Qlt_irrefl in Htau. }
  rewrite E.
  assert (0 <= (1 - r) * (theta_t - m)) by (apply Qmult_le_0_compat; lra).
  assert (0 <= r * (theta_base d - m)) by (apply Qmult_le_0_compat; lra).
  lra.
Qed.

Lemma floor_inv_init d T :
  theta_base_in_range (theta_base d) -> floor_inv (loop_init d T).
Proof.
  intros H. unfold floor_inv, loop_init, reset. destruct d. cbn in *.
  split; [assumption|]. intros i y [-> _]%lookup_replicate. apply H.
Qed.

Lemma floor_inv_body I_t k s s' :
  0 <= dt (det s) -> dt (det s) <= tau_theta (det s) -> 0 < tau_theta (det s) ->
  0 <= theta_inc (det s) ->
  floor_inv s -> body I_t k s = Ok s' -> floor_inv s'.
Proof.
  intros Hdt Hle Htau Hinc [Htb Hth] Hb. split.
  - apply body_theta_base in Hb as (due & _ & Hb). destruct due.
    + exact Hb.
    + now rewrite Hb.
  - apply body_pass in Hb
      as (_ & _ & _ & _ & Hfr & v_t & I & th & _ & _ & Hth0 & _ & Hc).
    cbv zeta in Hc. intros i y Hy.
    destruct (decide (i = (k + 1)%nat)) as [->|Hne].
    + pose proof (Hth k th Hth0) as Hk.
      destruct Hc as [(_ & _ & _ & E & _) | (_ & _ & _ & E & _)];
        rewrite E in Hy; injection Hy as <-.
      * lra.
      * apply relaxed_floor; try assumption. apply Htb.
    + destruct (Hfr i Hne) as (_ & E & _). rewrite E in Hy. eauto.
Qed.

Lemma run_upto_floor d ecg I_t n s :
  0 <= dt d -> dt d <= tau_theta d -> 0 < tau_theta d -> 0 <= theta_inc d ->
  theta_base_in_range (theta_base d) ->
  run_upto d ecg n = Ok (I_t, s) -> floor_inv s.
Proof.
  intros Hdt Hle Htau Hinc Htb.
  apply (run_upto_ind d ecg I_t (fun _ s => floor_inv s)).
  - now apply floor_inv_init.
  - intros k s0 s' H0 IH Hb.
    pose proof (run_upto_shape d ecg I_t k s0 H0) as (Ec & _).
    apply config_fields in Ec as (_ & Edt & _ & Ett & Einc & _).
    apply (floor_inv_body I_t k s0 s'); rewrite ?Edt, ?Ett, ?Einc; assumption.
Qed.

End DetectorFloor.

(** X10. Threshold floor.  For a detector whose [theta_base] starts
    inside [[0.001, 1.0]], with [0 <= dt <= tau_theta] and a threshold
    increment that is not negative, every entry of the returned [theta]
    is at least 0.001. *)
Theorem X10_threshold_floor
    (d d' : AdaptiveLIFDetector.t) (ecg I_t v theta : list Q) (spikes : list Z) :
  0 <= AdaptiveLIFDetector.dt d ->
  AdaptiveLIFDetector.dt d <= AdaptiveLIFDetector.tau_theta d ->
  0 < AdaptiveLIFDetector.tau_theta d ->
  0 <= AdaptiveLIFDetector.theta_inc d ->
  AdaptiveLIFDetector.THETA_BASE_MIN <= AdaptiveLIFDetector.theta_base d ->
  AdaptiveLIFDetector.theta_base d <= AdaptiveLIFDetector.THETA_BASE_MAX ->
  AdaptiveLIFDetector.run d ecg = Ok (d', (I_t, v, theta, spikes)) ->
  Forall (fun y => AdaptiveLIFDetector.THETA_BASE_MIN <= y) theta.
Proof.
  intros Hdt Hle Htau Hinc Hlo Hhi (s & H & _ & _ & -> & _)%run_Ok.
  destruct (run_upto_floor d ecg I_t _ s Hdt Hle Htau Hinc (conj Hlo Hhi) H)
    as [_ Hth].
  apply Forall_lookup. exact Hth.
Qed.

Lemma X10_threshold_floor_witness :
  exists d' I_t v theta spikes,
    AdaptiveLIFDetector.run AdaptiveLIFDetector.short_detector
      [0; 1; 0; 0; 0; 1; 0; 0] = Ok (d', (I_t, v, theta, spikes)) /\
    Forall (fun y => AdaptiveLIFDetector.THETA_BASE_MIN <= y) theta.
Proof.
  destruct (AdaptiveLIFDetector.run AdaptiveLIFDetector.short_detector
              [0; 1; 0; 0; 0; 1; 0; 0])
    as [[d' [[[I_t v] theta] spikes]]|e] eqn:E;
    [|exfalso; vm_compute in E; discriminate].
  exists d', I_t, v, theta, spikes. split; [reflexivity|].
  apply (X10_threshold_floor AdaptiveLIFDetector.short_detector d'
           [0; 1; 0; 0; 0; 1; 0; 0] I_t v theta spikes).
  - vm_compute. discriminate.
  - vm_compute. discriminate.
  - reflexivity.
  - vm_compute. discriminate.
  - vm_compute. discriminate.
  - vm_compute. discriminate.
  - exact E.
Defined.



(** ** The detector: order of the spike times, exceptions *)

Lemma filter_seq_increasing (P : nat -> Prop) `{!forall x, Decision (P x)}
    (lo n i j a b : nat) :
  (i < j)%nat ->
  filter P (seq lo n) !! i = Some a -> filter P (seq lo n) !! j = Some b ->
  (a < b)%nat.
Proof.
  revert i j a b. induction n as [|n IH]; intros i j a b Hij Ha Hb.
  - discriminate.
  - rewrite seq_S, filter_app in Ha, Hb.
    apply lookup_app_Some in Ha as [Ha | [Hia Ha]];
      apply lookup_app_Some in Hb as [Hb | [Hjb Hb]].
    + eauto.
    + assert (Hin : a ∈ filter P (seq lo n))
        by (apply list_elem_of_lookup; eauto).
      apply list_elem_of_filter in Hin as [_ Hin%elem_of_seq].
      assert (Hb' : b ∈ filter P [(lo + n)%nat])
        by (apply list_elem_of_lookup; eauto).
      apply list_elem_of_filter in Hb' as [_ Hb'%list_elem_of_singleton]. lia.
    + apply lookup_lt_Some in Hb. lia.
    + assert (Hlen : (length (filter P [(lo + n)%nat]) <= 1)%nat).
      { rewrite filter_cons, filter_nil. destruct (decide (P (lo + n)%nat)); cbn; lia. }
      apply lookup_lt_Some in Ha. apply lookup_lt_Some in Hb. lia.
Qed.

Lemma stamp_increasing (fs : Q) (a b : nat) :
  0 < fs -> (a < b)%nat -> of_nat a / fs < of_nat b / fs.
Proof.
  intros Hfs Hab. unfold Qdiv. apply Qmult_lt_compat_r.
  - now apply Qinv_lt_0_compat.
  - unfold of_nat. rewrite <- Zlt_Qlt. lia.
Qed.

(** X12. For a positive sample rate, [spike_times] is strictly
    increasing: an entry is smaller than every later one. *)
Theorem X12_spike_times_increasing
    (d d' : AdaptiveLIFDetector.t) (ecg I_t v theta : list Q) (spikes : list Z)
    (i j : nat) (s1 s2 : Q) :
  0 < AdaptiveLIFDetector.fs d ->
  AdaptiveLIFDetector.run d ecg = Ok (d', (I_t, v, theta, spikes)) ->
  (i < j)%nat ->
  AdaptiveLIFDetector.spike_times d' !! i = Some s1 ->
  AdaptiveLIFDetector.spike_times d' !! j = Some s2 ->
  s1 < s2.
Proof.
  intros Hfs (s & H & -> & _ & _ & ->)%run_Ok Hij H1 H2.
  pose proof (run_upto_shape d ecg I_t _ s H) as (Ec & _).
  apply config_fields in Ec as (Efs & _).
  destruct (run_upto_train d ecg I_t _ s H) as (Hmap & _).
  cbv zeta in Hmap. rewrite Efs in Hmap. rewrite Hmap in H1, H2.
  rewrite lookup_map in H1, H2.
  destruct (spike_indices _ !! i) as [a|] eqn:Ea; [|discriminate].
  destruct (spike_indices _ !! j) as [b|] eqn:Eb; [|discriminate].
  cbn in H1, H2. injection H1 as <-. injection H2 as <-.
  apply stamp_increasing; [assumption|].
  unfold spike_indices in Ea, Eb.
  exact (filter_seq_increasing _ _ _ i j a b Hij Ea Eb).
Qed.

Lemma X12_spike_times_increasing_witness :
  exists d' I_t v theta spikes s1 s2,
    AdaptiveLIFDetector.run AdaptiveLIFDetector.short_detector
      [0; 1; 0; 0; 0; 1; 0; 0] = Ok (d', (I_t, v, theta, spikes)) /\
    AdaptiveLIFDetector.spike_times d' !! 0%nat = Some s1 /\
    AdaptiveLIFDetector.spike_times d' !! 1%nat = Some s2 /\
    s1 < s2.
Proof.
  destruct (AdaptiveLIFDetector.run AdaptiveLIFDetector.short_detector
              [0; 1; 0; 0; 0; 1; 0; 0])
    as [[d' [[[I_t v] theta] spikes]]|e] eqn:E;
    [|exfalso; vm_compute in E; discriminate].
  destruct (AdaptiveLIFDetector.spike_times d' !! 0%nat) as [s1|] eqn:E1.
  2:{ exfalso. pose proof E as E'. vm_compute in E'.
      injection E' as <- _ _ _ _. clear E. vm_compute in E1. discriminate E1. }
  destruct (AdaptiveLIFDetector.spike_times d' !! 1%nat) as [s2|] eqn:E2.
  2:{ exfalso. pose proof E as E'. vm_compute in E'.
      injection E' as <- _ _ _ _. clear E. vm_compute in E2. discriminate E2. }
  exists d', I_t, v, theta, spikes, s1, s2.
  split; [reflexivity|]. split; [exact E1|]. split; [exact E2|].
  apply (X12_spike_times_increasing AdaptiveLIFDetector.short_detector d'
           [0; 1; 0; 0; 0; 1; 0; 0] I_t v theta spikes 0 1 s1 s2);
    [reflexivity | exact E | lia | exact E1 | exact E2].
Defined.

Section DetectorErrors.
Import AdaptiveLIFDetector.

Lemma run_total d (ecg : list Q) :
  ecg <> [] ->
  length ecg = 1%nat \/
    (~ fs d == 0 /\ py_int (homeo_window_s d * fs d) <> 0%Z) ->
  exists out, run d ecg = Ok out.
Proof.
  intros Hne Hcfg.
  destruct (run_upto_total d ecg (length ecg - 1) Hne) as (I_t & s & H).
  - destruct ecg; [congruence | cbn; lia].
  - destruct Hcfg as [-> | Hcfg]; [now left | now right].
  - exists (det s, (I_t, v (det s), theta (det s), spikes s)).
    apply run_Ok. eauto 10.
Qed.

(** The first pass of the loop raises when the sample rate is zero. *)
Lemma body_0_fs_zero d (ecg I_t : list Q) :
  (2 <= length ecg)%nat -> length I_t = length ecg -> fs d == 0 ->
  body I_t 0 (loop_init d (length ecg)) = Raise ZeroDivisionError.
Proof.
  intros HT LI Hfs.
  destruct (shape_init d ecg) as (Ec & Lv & Lth & Lsp & _).
  apply config_fields in Ec as (Efs & _).
  unfold body, lif_step. cbv zeta.
  destruct (get_total (v (det (loop_init d (length ecg)))) 0) as [v_t ->]; [lia|].
  destruct (get_total I_t 0) as [I ->]; [lia|].
  cbn [bind]. rewrite set_total by lia. cbn [bind].
  unfold py_div at 1. rewrite Efs.
  apply Qeq_bool_iff in Hfs. rewrite Hfs. reflexivity.
Qed.

(** It raises too when the homeostatic window holds no sample. *)
Lemma body_0_window_zero d (ecg I_t : list Q) :
  (2 <= length ecg)%nat -> length I_t = length ecg -> ~ fs d == 0 ->
  py_int (homeo_window_s d * fs d) = 0%Z ->
  body I_t 0 (loop_init d (length ecg)) = Raise ZeroDivisionError.
Proof.
  intros HT LI Hfs Hw.
  destruct (shape_init d ecg) as (Ec & Lv & Lth & Lsp & _).
  pose proof (config_fields _ _ Ec) as (Efs & _ & _ & _ & _ & _ & _ & _ & Ew).
  destruct (lif_step_total I_t 0 (loop_init d (length ecg))) as [s1 H1];
    try lia.
  { now rewrite Efs. }
  pose proof (lif_step_config _ _ _ _ H1) as Ec1.
  apply config_fields in Ec1 as (Efs1 & _ & _ & _ & _ & _ & _ & _ & Ew1).
  unfold body. rewrite H1. cbn [bind].
  unfold homeostasis, homeo_due, py_mod.
  rewrite Ew1, Efs1, Ew, Efs, Hw. reflexivity.
Qed.

Lemma run_raises_zero_division d (ecg : list Q) :
  (2 <= length ecg)%nat ->
  fs d == 0 \/ py_int (homeo_window_s d * fs d) = 0%Z ->
  run d ecg = Raise ZeroDivisionError.
Proof.
  intros HT Hbad.
  assert (Hne : ecg <> []) by (destruct ecg; [cbn in HT; lia | discriminate]).
  destruct (drive_current_total d ecg Hne) as [I_t HI].
  pose proof (drive_current_length d ecg I_t HI) as LI.
  assert (Hb : body I_t 0 (loop_init d (length ecg)) = Raise ZeroDivisionError).
  { destruct (Qeq_dec (fs d) 0) as [Hz | Hnz].
    - now apply body_0_fs_zero.
    - destruct Hbad as [Hz | Hw]; [contradiction|].
      now apply body_0_window_zero. }
  unfold run, run_upto. rewrite HI. cbn [bind].
  destruct (length ecg - 1)%nat as [|k] eqn:Ek; [lia|].
  unfold for_rangeM. cbn [for_fromM]. rewrite Hb. reflexivity.
Qed.
End DetectorErrors.

(** X13. The exceptions of [run].  It raises [ValueError] exactly on the
    empty signal, [ZeroDivisionError] exactly on a signal of two or more
    samples when [fs] is zero or [int(homeo_window_s * fs)] is zero, and
    never [IndexError]: every array access of the loop is in range. *)
Theorem X13_run_exceptions (d : AdaptiveLIFDetector.t) (ecg : list Q) :
  (AdaptiveLIFDetector.run d ecg = Raise ValueError <-> ecg = []) /\
  (AdaptiveLIFDetector.run d ecg = Raise ZeroDivisionError <->
   (2 <= length ecg)%nat /\
   (AdaptiveLIFDetector.fs d == 0 \/
    py_int (AdaptiveLIFDetector.homeo_window_s d * AdaptiveLIFDetector.fs d)
    = 0%Z)) /\
  AdaptiveLIFDetector.run d ecg <> Raise IndexError.
Proof.
  destruct ecg as [|x ecg].
  { assert (E : AdaptiveLIFDetector.run d [] = Raise ValueError) by reflexivity.
    rewrite E. repeat split; try discriminate; cbn; try lia. }
  set (sig := x :: ecg).
  assert (Hne : sig <> []) by discriminate.
  destruct (decide (2 <= length sig)%nat) as [HT | HT];
    [destruct (Qeq_dec (AdaptiveLIFDetector.fs d) 0) as [Hfs | Hfs];
     [|destruct (Z.eq_dec
                   (py_int (AdaptiveLIFDetector.homeo_window_s d
                            * AdaptiveLIFDetector.fs d)) 0%Z) as [Hw | Hw]]|].
  - rewrite (run_raises_zero_division d sig HT (or_introl Hfs)).
    repeat split; try discriminate; auto.
  - rewrite (run_raises_zero_division d sig HT (or_intror Hw)).
    repeat split; try discriminate; auto.
  - destruct (run_total d sig Hne) as [out ->]; [right; auto|].
    repeat split; try discriminate.
    intros [_ [H | H]]; contradiction.
  - destruct (run_total d sig Hne) as [out ->].
    { left. subst sig. cbn in *. lia. }
    repeat split; try discriminate.
    intros [H _]. contradiction.
Qed.

(** ** The closed loop *)

Lemma for_rangeM_ind {St : Type} (body : nat -> St -> result St)
    (P : nat -> St -> Prop) (s0 : St) :
  P O s0 ->
  (forall k s s', P k s -> body k s = Ok s' -> P (S k) s') ->
  forall n s, for_rangeM n body s0 = Ok s -> P n s.
Proof.
  intros H0 HS. induction n as [|n IH]; intros s H.
  - now injection H as <-.
  - rewrite for_rangeM_S in H. apply bind_Ok in H as (s1 & H1 & Hb). eauto.
Qed.

Section Inject.
Variable fs : Q.
Variable N : nat.
Variable pm : PacemakerController.t.
Variable obs : list Q.
Variable i : nat.

Abbreviation width :=
  (Z.max 1 (py_int (PacemakerController.pulse_width_s pm * fs))).

(** The ramp value added at offset [j]. *)
Abbreviation ramp j := ((9 # 10) * (1 - of_nat j / inject_Z width)).

Abbreviation pulse_body :=
  (fun (j : nat) (o : list Q) =>
     if decide (i + j < N)%nat
     then match o !! (i + j)%nat with
          | Some x => <[(i + j)%nat := x + ramp j]> o
          | None => o
          end
     else o).

(** The signal after the first [m] samples of the pulse. *)
Lemma inject_prefix m :
  let o := for_range m pulse_body obs in
  length o = length obs /\
  (forall k, (k < i \/ i + m <= k \/ N <= k)%nat -> o !! k = obs !! k) /\
  (forall j x, (j < m)%nat -> (i + j < N)%nat -> obs !! (i + j)%nat = Some x ->
     o !! (i + j)%nat = Some (x + ramp j)).
Proof.
  induction m as [|m (IHl & IHf & IHw)]; cbv zeta.
  - repeat split; auto. intros; lia.
  - rewrite for_range_S. set (o := for_range m pulse_body obs) in *.
    cbv beta. destruct (decide (i + m < N)%nat) as [Hin | Hout].
    + destruct (o !! (i + m)%nat) as [y|] eqn:Ey.
      * assert (Ey' : obs !! (i + m)%nat = Some y).
        { rewrite <- IHf by lia. exact Ey. }
        split; [now rewrite length_insert|]. split.
        -- intros k Hk. rewrite list_lookup_insert_ne by lia. apply IHf. lia.
        -- intros j x Hj HjN Hx. destruct (decide (j = m)) as [->|Hne].
           ++ rewrite list_lookup_insert_eq by (now apply lookup_lt_Some in Ey).
              congruence.
           ++ rewrite list_lookup_insert_ne by lia. apply IHw; (assumption || lia).
      * split; [assumption|]. split.
        -- intros k Hk. apply IHf. lia.
        -- intros j x Hj HjN Hx. destruct (decide (j = m)) as [->|Hne].
           ++ rewrite <- IHf in Hx by lia. congruence.
           ++ apply IHw; (assumption || lia).
    + split; [assumption|]. split.
      * intros k Hk. apply IHf. lia.
      * intros j x Hj HjN Hx. apply IHw; [lia | assumption..].
Qed.

Lemma ramp_nonneg j : (j < Z.to_nat width)%nat -> 0 <= ramp j.
Proof.
  intros Hj.
  assert (Hw : 0 < inject_Z width).
  { change 0 with (inject_Z 0). rewrite <- Zlt_Qlt. lia. }
  assert (Hle : of_nat j / inject_Z width <= 1).
  { apply Qle_shift_div_r; [assumption|]. rewrite Qmult_1_l.
    unfold of_nat. rewrite <- Zle_Qle. lia. }
  apply Qmult_le_0_compat; [discriminate | lra].
Qed.
End Inject.

(** X14. The pulse artefact.  [inject] keeps the length of the observed
    signal, leaves every sample before index [i], from index [i + width]
    on and from index [N] on untouched, adds
    [0.9 * (1 - j / width)] to sample [i + j] for each [j < width] inside
    the signal, and so never lowers a sample;
    [width = max(1, int(pulse_width_s * fs))]. *)
Theorem X14_inject_adds_ramp
    (fs : Q) (N : nat) (pm : PacemakerController.t) (obs : list Q) (i : nat) :
  let width := Z.max 1 (py_int (PacemakerController.pulse_width_s pm * fs)) in
  let obs' := ClosedLoop.inject fs N pm obs i in
  length obs' = length obs /\
  (forall k, (k < i \/ i + Z.to_nat width <= k \/ N <= k)%nat ->
     obs' !! k = obs !! k) /\
  (forall j x, (j < Z.to_nat width)%nat -> (i + j < N)%nat ->
     obs !! (i + j)%nat = Some x ->
     obs' !! (i + j)%nat
     = Some (x + (9 # 10) * (1 - of_nat j / inject_Z width))) /\
  (forall k x x', obs !! k = Some x -> obs' !! k = Some x' -> x <= x').
Proof.
  cbv zeta. unfold ClosedLoop.inject. cbv zeta.
  destruct (inject_prefix fs N pm obs i
              (Z.to_nat (Z.max 1 (py_int (PacemakerController.pulse_width_s pm * fs)))))
    as (Hl & Hf & Hw).
  cbv zeta in Hl, Hf, Hw.
  split; [exact Hl|]. split; [exact Hf|]. split; [exact Hw|].
  intros k x x' Hx Hx'.
  set (w := Z.to_nat (Z.max 1 (py_int (PacemakerController.pulse_width_s pm * fs)))) in *.
  destruct (decide (k < i \/ i + w <= k \/ N <= k)%nat) as [Hk | Hk].
  - rewrite Hf in Hx' by assumption. rewrite Hx in Hx'. injection Hx' as <-.
    apply Qle_refl.
  - replace k with (i + (k - i))%nat in * by lia.
    rewrite (Hw (k - i)%nat x) in Hx' by (assumption || lia).
    injection Hx' as <-.
    pose proof (ramp_nonneg fs pm (k - i)%nat) as Hr.
    cbv zeta in Hr. fold w in Hr. specialize (Hr ltac:(lia)). lra.
Qed.

Section ClosedLoopMore.
Import PacemakerController.

Lemma step_captured c t_s spike draw :
  let o := snd (step c t_s spike draw) in
  snd (fst o) = paced o && draw.
Proof.
  unfold step, sense, pace_phase.
  destruct (spike && _ && _); cbn [last_event_time escape_interval_s];
    match goal with
    | |- context [Qgeb ?a ?b] => destruct (Qgeb a b)
    end; reflexivity.
Qed.

(** What one pass of the closed loop computes, read off its text. *)
Lemma closed_loop_body_Ok fs N draws i s s' :
  ClosedLoop.body fs N draws i s = Ok s' ->
  exists sp,
    ClosedLoop.spikes s !! i = Some sp /\
    let t_s := sample_time fs i in
    let r := step (ClosedLoop.pacemaker s) t_s (Z.eqb sp 1) (draws i) in
    let o := snd r in
    let hit := paced o && draws i in
    ClosedLoop.pacemaker s' = fst r /\
    ClosedLoop.sensed_times s'
    = ClosedLoop.sensed_times s ++ (if accepted o then [t_s] else []) /\
    ClosedLoop.paced_times s'
    = ClosedLoop.paced_times s ++ (if hit then [t_s] else []) /\
    ClosedLoop.captured_times s'
    = ClosedLoop.captured_times s ++ (if hit then [t_s] else []) /\
    if hit
    then ClosedLoop.obs_ecg s'
         = ClosedLoop.inject fs N (fst r) (ClosedLoop.obs_ecg s) i /\
         AdaptiveLIFDetector.run (ClosedLoop.detector s) (ClosedLoop.obs_ecg s')
         = Ok (ClosedLoop.detector s',
               (ClosedLoop.I_t s', ClosedLoop.v s', ClosedLoop.theta s',
                ClosedLoop.spikes s'))
    else ClosedLoop.obs_ecg s' = ClosedLoop.obs_ecg s /\
         ClosedLoop.detector s' = ClosedLoop.detector s /\
         ClosedLoop.spikes s' = ClosedLoop.spikes s.
Proof.
  unfold ClosedLoop.body. intros (sp & Hsp%get_Ok & H)%bind_Ok.
  exists sp. split; [assumption|]. cbv zeta.
  pose proof (step_captured (ClosedLoop.pacemaker s) (sample_time fs i)
                (Z.eqb sp 1) (draws i)) as Hcap.
  cbv zeta in Hcap. unfold paced in *.
  destruct (step _ _ _ _) as [pm [[pace captured] acc]]. cbn in Hcap |- *.
  subst captured.
  destruct pace, (draws i); cbn in H |- *.
  - apply bind_Ok in H as ([d' [[[I' v'] th'] sp']] & Hrun & [= <-]). cbn.
    destruct acc; rewrite ?app_nil_r; repeat split; auto.
  - injection H as <-. cbn. destruct acc; rewrite ?app_nil_r; repeat split; auto.
  - injection H as <-. cbn. destruct acc; rewrite ?app_nil_r; repeat split; auto.
  - injection H as <-. cbn. destruct acc; rewrite ?app_nil_r; repeat split; auto.
Qed.

(** A run returns a spike array as long as its signal and keeps the
    configuration. *)
Lemma run_length_config d ecg d' I_t v theta spikes :
  AdaptiveLIFDetector.run d ecg = Ok (d', (I_t, v, theta, spikes)) ->
  length spikes = length ecg /\ config d' = config d.
Proof.
  intros (s & H & -> & _ & _ & ->)%run_Ok.
  pose proof (run_upto_shape d ecg I_t _ s H) as (Ec & _ & _ & Lsp & _). auto.
Qed.

Lemma inject_length fs N pm obs i :
  length (ClosedLoop.inject fs N pm obs i) = length obs.
Proof.
  unfold ClosedLoop.inject. cbv zeta.
  now destruct (inject_prefix fs N pm obs i
                  (Z.to_nat (Z.max 1 (py_int (pulse_width_s pm * fs))))) as (Hl & _).
Qed.

Lemma books_body fs N draws i s s' :
  books s -> ClosedLoop.body fs N draws i s = Ok s' -> books s'.
Proof.
  intros (Hs & Hpc & Hp) (sp & _ & H)%closed_loop_body_Ok. cbv zeta in H.
  destruct H as (Epm & Es & Ep & Ec & _).
  destruct (step_histories (ClosedLoop.pacemaker s) (sample_time fs i)
              (Z.eqb sp 1) (draws i)) as [Hph Hsh].
  cbv zeta in Hph, Hsh.
  unfold books. rewrite Epm, Es, Ep, Ec, Hph, Hsh, Hs, Hpc.
  split; [reflexivity|]. split; [reflexivity|].
  rewrite filter_app, map_app, <- Hp, Hpc. f_equal.
  destruct (paced _); [|reflexivity].
  destruct (draws i); reflexivity.
Qed.

Lemma loop_shape_body d fs N draws i s s' :
  loop_shape d N s -> ClosedLoop.body fs N draws i s = Ok s' ->
  loop_shape d N s'.
Proof.
  intros (Lsp & Lobs & Ec) (sp & _ & H)%closed_loop_body_Ok. cbv zeta in H.
  destruct H as (_ & _ & _ & _ & H).
  destruct (paced _ && draws i).
  - destruct H as [Eobs Hrun].
    apply run_length_config in Hrun as [L E].
    assert (Lobs' : length (ClosedLoop.obs_ecg s') = N)
      by (now rewrite Eobs, inject_length).
    split; [congruence|]. split; [assumption | congruence].
  - destruct H as (E1 & E2 & E3). unfold loop_shape.
    rewrite E1, E2, E3. auto.
Qed.

Lemma closed_loop_body_total d fs N draws i s :
  loop_shape d N s -> (i < N)%nat ->
  ~ AdaptiveLIFDetector.fs d == 0 ->
  py_int (AdaptiveLIFDetector.homeo_window_s d * AdaptiveLIFDetector.fs d)
    <> 0%Z ->
  exists s', ClosedLoop.body fs N draws i s = Ok s'.
Proof.
  intros (Lsp & Lobs & Ec) Hi Hfs Hw.
  pose proof (config_fields _ _ Ec) as (Efs & _ & _ & _ & _ & _ & _ & _ & Ew).
  unfold ClosedLoop.body.
  destruct (get_total (ClosedLoop.spikes s) i) as [sp ->]; [lia|]. cbn [bind].
  destruct (step _ _ _ _) as [pm [[pace captured] acc]].
  destruct (pace && captured); [|eauto].
  destruct (run_total (ClosedLoop.detector s)
              (ClosedLoop.inject fs N pm (ClosedLoop.obs_ecg s) i))
    as [[d' [[[I' v'] th'] sp']] ->].
  - intros E. apply (f_equal length) in E. rewrite inject_length in E.
    cbn in E. lia.
  - right. now rewrite Ew, Efs.
  - cbn. eauto.
Qed.
End ClosedLoopMore.

Lemma run_closed_loop_Ok fs (ecg : list Q) det pm draws st :
  ClosedLoop.run_closed_loop fs ecg det pm draws = Ok st ->
  exists d' I_t v theta spikes,
    ~ fs == 0 /\
    AdaptiveLIFDetector.run det ecg = Ok (d', (I_t, v, theta, spikes)) /\
    for_rangeM (length ecg) (ClosedLoop.body fs (length ecg) draws)
      (ClosedLoop.mk ecg d' I_t v theta spikes pm [] [] []) = Ok st.
Proof.
  unfold ClosedLoop.run_closed_loop.
  intros (q & [Hfs _]%py_div_Ok & H)%bind_Ok.
  apply bind_Ok in H as ([d' [[[I_t v] theta] spikes]] & Hrun & H).
  exists d', I_t, v, theta, spikes. auto.
Qed.

(** X15. The books of the closed loop.  Started with a controller whose
    histories are empty, [run_closed_loop] returns lists that agree with
    the controller's own: [sensed_times] is its [sensed_history],
    [paced_times] equals [captured_times] and holds the times of the
    paces recorded as captured in [pacing_history]; the observed signal
    keeps the length of the input; and the controller went through one
    [step] per sample time [i / fs]. *)
Theorem X15_closed_loop_bookkeeping
    (fs : Q) (ecg : list Q) (det : AdaptiveLIFDetector.t)
    (pm : PacemakerController.t) (draws : nat -> bool) (st : ClosedLoop.state) :
  PacemakerController.pacing_history pm = [] ->
  PacemakerController.sensed_history pm = [] ->
  ClosedLoop.run_closed_loop fs ecg det pm draws = Ok st ->
  ClosedLoop.sensed_times st
  = PacemakerController.sensed_history (ClosedLoop.pacemaker st) /\
  ClosedLoop.paced_times st = ClosedLoop.captured_times st /\
  ClosedLoop.paced_times st
  = map fst (filter (fun p => snd p = true)
               (PacemakerController.pacing_history (ClosedLoop.pacemaker st))) /\
  length (ClosedLoop.obs_ecg st) = length ecg /\
  length (ClosedLoop.spikes st) = length ecg /\
  exists flags : nat -> bool,
    ClosedLoop.pacemaker st
    = PacemakerController.drive fs flags draws (length ecg) pm.
Proof.
  intros Hp Hs (d' & I_t & v & theta & spikes & _ & Hrun & Hloop)%run_closed_loop_Ok.
  apply run_length_config in Hrun as [Lsp Ec].
  assert (Hinv : books st /\ loop_shape det (length ecg) st).
  { revert Hloop.
    apply (for_rangeM_ind (ClosedLoop.body fs (length ecg) draws)
             (fun _ s => books s /\ loop_shape det (length ecg) s)).
    - split.
      + unfold books. cbn. now rewrite Hp, Hs.
      + unfold loop_shape. cbn. auto.
    - intros k s s' [Hb Hsh] Hbody. split.
      + exact (books_body fs _ draws k s s' Hb Hbody).
      + exact (loop_shape_body det fs _ draws k s s' Hsh Hbody). }
  destruct Hinv as [(H1 & H2 & H3) (L1 & L2 & _)].
  do 5 (split; [assumption|]).
  destruct (closed_loop_pacemaker_is_drive fs (length ecg) draws (length ecg)
              _ st Hloop) as [flags Hflags].
  exists flags. exact (Hflags (length ecg) st (Nat.le_refl _) Hloop).
Qed.

(** The short-window detector and the default controller on two pulses,
    every pace captured. *)
Lemma X15_closed_loop_bookkeeping_witness :
  exists st,
    ClosedLoop.run_closed_loop 250 [0; 1; 0; 0; 0; 1; 0; 0]
      AdaptiveLIFDetector.short_detector PacemakerController.default_controller
      (fun _ => true) = Ok st /\
    ClosedLoop.sensed_times st
    = PacemakerController.sensed_history (ClosedLoop.pacemaker st) /\
    ClosedLoop.paced_times st = ClosedLoop.captured_times st.
Proof.
  destruct (ClosedLoop.run_closed_loop 250 [0; 1; 0; 0; 0; 1; 0; 0]
              AdaptiveLIFDetector.short_detector
              PacemakerController.default_controller (fun _ => true))
    as [st|e] eqn:E; [|exfalso; vm_compute in E; discriminate E].
  exists st. split; [reflexivity|].
  destruct (X15_closed_loop_bookkeeping 250 [0; 1; 0; 0; 0; 1; 0; 0]
              AdaptiveLIFDetector.short_detector
              PacemakerController.default_controller (fun _ => true) st
              eq_refl eq_refl E) as (H1 & H2 & _).
  split; assumption.
Defined.

(** X16. The closed loop runs to the end: on a non-empty signal, with a
    sample rate that is not zero (the loop's and the detector's) and a
    homeostatic window of at least one sample, [run_closed_loop] returns;
    no pass raises, whatever the capture draws and however often the
    detector is re-run. *)
Theorem X16_closed_loop_total
    (fs : Q) (ecg : list Q) (det : AdaptiveLIFDetector.t)
    (pm : PacemakerController.t) (draws : nat -> bool) :
  ecg <> [] ->
  ~ fs == 0 ->
  ~ AdaptiveLIFDetector.fs det == 0 ->
  py_int (AdaptiveLIFDetector.homeo_window_s det * AdaptiveLIFDetector.fs det)
    <> 0%Z ->
  exists st, ClosedLoop.run_closed_loop fs ecg det pm draws = Ok st.
Proof.
  intros Hne Hfs Hdfs Hw.
  destruct (run_total det ecg Hne) as [[d' [[[I_t v] theta] spikes]] Hrun];
    [right; auto|].
  pose proof (run_length_config _ _ _ _ _ _ _ Hrun) as [Lsp Ec].
  set (s0 := ClosedLoop.mk ecg d' I_t v theta spikes pm [] [] []).
  assert (Hloop : forall n, (n <= length ecg)%nat ->
            exists s, for_rangeM n (ClosedLoop.body fs (length ecg) draws) s0
                      = Ok s /\ loop_shape det (length ecg) s).
  { induction n as [|n IH]; intros Hn.
    - exists s0. split; [reflexivity|]. unfold loop_shape, s0. cbn. auto.
    - destruct IH as (s & Hs & Hsh); [lia|].
      destruct (closed_loop_body_total det fs (length ecg) draws n s Hsh)
        as [s' Hb]; [lia | assumption | assumption |].
      exists s'. split.
      + rewrite for_rangeM_S, Hs. exact Hb.
      + exact (loop_shape_body det fs _ draws n s s' Hsh Hb). }
  destruct (Hloop (length ecg) (Nat.le_refl _)) as (st & Hst & _).
  exists st. unfold ClosedLoop.run_closed_loop.
  rewrite py_div_total by assumption. cbn [bind]. rewrite Hrun. cbn [bind].
  exact Hst.
Qed.

Lemma X16_closed_loop_total_witness :
  exists st,
    ClosedLoop.run_closed_loop 250 [0; 1; 0; 0; 0; 1; 0; 0]
      AdaptiveLIFDetector.short_detector PacemakerController.default_controller
      (fun i => Nat.even i) = Ok st.
Proof.
  apply (X16_closed_loop_total 250 [0; 1; 0; 0; 0; 1; 0; 0]
           AdaptiveLIFDetector.short_detector
           PacemakerController.default_controller (fun i => Nat.even i)).
  - discriminate.
  - discriminate.
  - discriminate.
  - vm_compute. discriminate.
Defined.

(** ** The controller on a silent run *)


Section SilentRun.
Import PacemakerController.
Variable fs : Q.
Variable draws : nat -> bool.
Variable c0 : t.
Variable m : nat.
Hypothesis fs_pos : 0 < fs.
Hypothesis m_pos : (0 < m)%nat.
Hypothesis escape_samples : escape_interval_s c0 == of_nat m / fs.
Hypothesis escape_small : escape_interval_s c0 <= 1000000000.

Abbreviation silent := (fun _ : nat => false).

End SilentRun.


